(** * ICS 023 Merkle commitment types and the connection handshake handlers

    A shallow embedding of [x/ibc/23-commitment/types/merkle.go] and of
    [x/ibc/03-connection/handler.go].

    Go values are modelled as follows.
    - [[]byte] is [list byte]; [string] is [string]; the conversions
      [[]byte(s)] and [string(b)] are the Standard Library's
      [list_byte_of_string] and [string_of_list_byte].
    - A pointer is an [option] ([None] is the nil pointer); an interface
      value is an [option] of a sum of its implementations ([None] is the
      nil interface).
    - A Go function either returns or panics: [outcome].  An [error]
      result is an [option error] ([None] is the nil error).
    - Calls into the single-tree proof library (ics23) are recorded in a
      trace, so that "before any cryptographic work" is a statement about
      the trace. *)

From Stdlib Require Import List ZArith Lia Bool.
From Stdlib.Strings Require Import String Ascii Byte.
From Stdlib Require Import DecimalString.
Import ListNotations.
Open Scope string_scope.
Open Scope list_scope.
Open Scope Z_scope.

(** ** Go runtime: panics, slices, errors *)

Inductive panic : Type :=
| IndexOutOfRange (index : Z) (len : nat)   (* runtime error: index out of range *)
| NilDereference                            (* invalid memory address or nil pointer dereference *)
| PanicEscapeError (fragment : string)      (* panic(err), err a url.EscapeError *)
| PanicMessage (text : string).             (* panic("...") *)

Inductive outcome (A : Type) : Type :=
| Returns (a : A)
| Panics (p : panic).
Arguments Returns {A} a.
Arguments Panics {A} p.

Definition bytes := list byte.

(** [s[i]] on a slice: panics when [i] is negative or not below [len(s)]. *)
Definition slice_index {A : Type} (s : list A) (i : Z) : outcome A :=
  if i <? 0 then Panics (IndexOutOfRange i (List.length s))
  else match nth_error s (Z.to_nat i) with
       | Some a => Returns a
       | None => Panics (IndexOutOfRange i (List.length s))
       end.

(** [len(s)] as a Go [int]. *)
Definition len {A : Type} (s : list A) : Z := Z.of_nat (List.length s).

(** Modelled from the spec: the registered errors [ErrInvalidProof] (of
    the commitment package) and [ErrInvalidPath] (of the host package)
    are declared in files that are not among the sources at hand; they
    are the specification's [InvalidProof] and [InvalidPath].  [Wrap] is
    [sdkerrors.Wrap] or [sdkerrors.Wrapf] with the formatted description;
    [errors_New] is the standard [errors.New]. *)
Inductive error : Type :=
| ErrInvalidProof
| ErrInvalidPath
| Wrap (cause : error) (description : string)
| errors_New (text : string).

(** [err.Error()]: a registered error gives the description it was
    registered with, a wrapped error its description, a colon and the
    text of its cause. *)
Fixpoint Error_text (e : error) : string :=
  match e with
  | ErrInvalidProof => "invalid proof"
  | ErrInvalidPath => "invalid path"
  | Wrap c d => (d ++ ": " ++ Error_text c)%string
  | errors_New t => t
  end.

(** [%d] of a length. *)
Definition fmt_d (n : nat) : string := NilZero.string_of_uint (Nat.to_uint n).

(** ** Go's net/url: PathEscape and PathUnescape *)

Module url.

Definition byte_val (c : ascii) : N := N_of_ascii c.

Definition in_range (lo hi c : ascii) : bool :=
  ((byte_val lo <=? byte_val c) && (byte_val c <=? byte_val hi))%N.

Definition ishex (c : ascii) : bool :=
  in_range "0" "9" c || in_range "a" "f" c || in_range "A" "F" c.

Definition unhex (c : ascii) : N :=
  if in_range "0" "9" c then (byte_val c - byte_val "0")%N
  else if in_range "a" "f" c then (byte_val c - byte_val "a" + 10)%N
  else if in_range "A" "F" c then (byte_val c - byte_val "A" + 10)%N
  else 0%N.

Definition upperhex : string := "0123456789ABCDEF".

(** [upperhex[n]], for [n] a half byte. *)
Definition upperhex_at (n : N) : ascii :=
  match String.get (N.to_nat n) upperhex with
  | Some c => c
  | None => "0"%char     (* not reached: n is below 16 *)
  end.

Definition is_one_of (c : ascii) (s : string) : bool :=
  existsb (Ascii.eqb c) (list_ascii_of_string s).

(** [shouldEscape(c, encodePathSegment)]. *)
Definition shouldEscape (c : ascii) : bool :=
  if in_range "a" "z" c || in_range "A" "Z" c || in_range "0" "9" c then false
  else if is_one_of c "-_.~" then false
  else if is_one_of c "$&+,/:;=?@" then is_one_of c "/;,?"
  else true.

(** [escape(s, encodePathSegment)]: each byte that must be escaped
    becomes [%XX] in upper-case hexadecimal. *)
Fixpoint PathEscape (s : string) : string :=
  match s with
  | EmptyString => EmptyString
  | String c rest =>
      if shouldEscape c
      then String "%" (String (upperhex_at (N.shiftr (byte_val c) 4))
                      (String (upperhex_at (N.land (byte_val c) 15)) (PathEscape rest)))
      else String c (PathEscape rest)
  end.

(** The text of the [EscapeError] raised at a bad [%]: [s[i:]] cut to at
    most three bytes. *)
Definition escape_fragment (s : string) : string :=
  substring 0 3 s.

(** First pass of [unescape(s, encodePathSegment)]: every [%] must be
    followed by two hexadecimal digits.  Returns the offending fragment. *)
Fixpoint unescape_check (s : string) : option string :=
  match s with
  | EmptyString => None
  | String c rest =>
      if Ascii.eqb c "%" then
        match rest with
        | String h1 (String h2 rest') =>
            if ishex h1 && ishex h2 then unescape_check rest'
            else Some (escape_fragment s)
        | _ => Some (escape_fragment s)
        end
      else unescape_check rest
  end.

(** Second pass: [%XY] becomes the byte [unhex(X)<<4 | unhex(Y)]; a [+]
    stays a [+] in a path segment. *)
Fixpoint unescape_write (s : string) : string :=
  match s with
  | EmptyString => EmptyString
  | String c rest =>
      if Ascii.eqb c "%" then
        match rest with
        | String h1 (String h2 rest') =>
            String (ascii_of_N (N.lor (N.shiftl (unhex h1) 4) (unhex h2)))
                   (unescape_write rest')
        | _ => EmptyString
        end
      else String c (unescape_write rest)
  end.

(** [url.PathUnescape]: the decoded string, or the [EscapeError]. *)
Definition PathUnescape (s : string) : string + string :=
  match unescape_check s with
  | Some bad => inr bad
  | None => inl (unescape_write s)
  end.

End url.

(** ** Tendermint's crypto/merkle key paths *)

Module merkle.

(** The two encodings that [KeyPath.String()] renders.  Keys with any
    other value of the Go type are the [AnyKey]s further down. *)
Inductive KeyEncoding : Type := KeyEncodingURL | KeyEncodingHex.

Record Key : Type := { name : bytes; enc : KeyEncoding }.

Definition KeyPath := list Key.

(** [pth.AppendKey(key, enc)] is [append(pth, Key{key, enc})]. *)
Definition AppendKey (pth : KeyPath) (key : bytes) (e : KeyEncoding) : KeyPath :=
  pth ++ [ {| name := key; enc := e |} ].

(** [fmt.Sprintf("%X", b)]: two upper-case hexadecimal digits per byte. *)
Fixpoint fmt_X (s : string) : string :=
  match s with
  | EmptyString => EmptyString
  | String c rest =>
      String (url.upperhex_at (N.shiftr (url.byte_val c) 4))
             (String (url.upperhex_at (N.land (url.byte_val c) 15)) (fmt_X rest))
  end.

Definition Key_String (k : Key) : string :=
  match enc k with
  | KeyEncodingURL => ("/" ++ url.PathEscape (string_of_list_byte (name k)))%string
  | KeyEncodingHex => ("/x:" ++ fmt_X (string_of_list_byte (name k)))%string
  end.

(** [KeyPath.String()]: [res += ...] for each key in turn. *)
Definition KeyPath_String (pth : KeyPath) : string :=
  fold_left (fun res k => (res ++ Key_String k)%string) pth "".

End merkle.

(** ** MerkleRoot, MerklePrefix, MerklePath *)

Record MerkleRoot : Type := { Hash : bytes }.

Definition NewMerkleRoot (hash : bytes) : MerkleRoot := {| Hash := hash |}.

Definition MerkleRoot_GetHash (mr : MerkleRoot) : bytes := Hash mr.

Definition MerkleRoot_IsEmpty (mr : MerkleRoot) : bool :=
  len (MerkleRoot_GetHash mr) =? 0.

Record MerklePrefix : Type := { KeyPrefix : bytes }.

Definition NewMerklePrefix (keyPrefix : bytes) : MerklePrefix :=
  {| KeyPrefix := keyPrefix |}.

Definition MerklePrefix_Bytes (mp : MerklePrefix) : bytes := KeyPrefix mp.

Definition MerklePrefix_IsEmpty (mp : MerklePrefix) : bool :=
  len (MerklePrefix_Bytes mp) =? 0.

Record MerklePath : Type := { KeyPaths : list merkle.KeyPath }.

(** [NewMerklePath]: every string appended as a URL-encoded key to one
    key path, which is the only level of the result. *)
Definition NewMerklePath (keyPathStr : list string) : MerklePath :=
  let merkleKeyPath :=
    fold_left (fun kp keyStr =>
                 merkle.AppendKey kp (list_byte_of_string keyStr) merkle.KeyEncodingURL)
              keyPathStr ([] : merkle.KeyPath) in
  {| KeyPaths := [merkleKeyPath] |}.

(** [MerklePath.String()]: the first level, then ["/"] and each further
    level. *)
Definition MerklePath_String (mp : MerklePath) : string :=
  match KeyPaths mp with
  | [] => ""
  | k0 :: rest =>
      fold_left (fun pathStr p => (pathStr ++ "/" ++ merkle.KeyPath_String p)%string)
                rest (merkle.KeyPath_String k0)
  end.

(** [MerklePath.Pretty()]: [url.PathUnescape] of [String()], and a panic
    with the error when unescaping fails. *)
Definition MerklePath_Pretty (mp : MerklePath) : outcome string :=
  match url.PathUnescape (MerklePath_String mp) with
  | inr err => Panics (PanicEscapeError err)
  | inl path => Returns path
  end.

Definition MerklePath_IsEmpty (mp : MerklePath) : bool :=
  len (KeyPaths mp) =? 0.

(** ** Keys of any encoding

    Go declares [KeyEncoding] as an [int]: [KeyEncodingURL] is 0,
    [KeyEncodingHex] is 1, and [AppendKey] takes any value of the type
    ([KeyEncodingMax], 2, among them).  [KeyPath.String()] renders the
    two known encodings and panics on every other.  A [merkle.Key] above
    is a key whose encoding is known; an [AnyKey] holds the encoding as
    the integer it is, and its rendering may panic. *)

Record AnyKey : Type := { key_name : bytes; key_enc : Z }.

Definition known_encoding (e : Z) : option merkle.KeyEncoding :=
  if e =? 0 then Some merkle.KeyEncodingURL
  else if e =? 1 then Some merkle.KeyEncodingHex
  else None.

(** One turn of the loop of [KeyPath.String()]: the switch on [key.enc],
    with [panic("unexpected key encoding type")] by default. *)
Definition AnyKey_String (k : AnyKey) : outcome string :=
  match known_encoding (key_enc k) with
  | Some e => Returns (merkle.Key_String {| merkle.name := key_name k; merkle.enc := e |})
  | None => Panics (PanicMessage "unexpected key encoding type")
  end.

Definition AnyKeyPath_String (pth : list AnyKey) : outcome string :=
  fold_left (fun res k =>
               match res with
               | Panics p => Panics p
               | Returns r =>
                   match AnyKey_String k with
                   | Panics p => Panics p
                   | Returns s => Returns (r ++ s)%string
                   end
               end)
            pth (Returns "").

Record AnyMerklePath : Type := { AnyKeyPaths : list (list AnyKey) }.

(** [MerklePath.String()], each [p.String()] being a call that may
    panic. *)
Definition AnyMerklePath_String (mp : AnyMerklePath) : outcome string :=
  match AnyKeyPaths mp with
  | [] => Returns ""
  | k0 :: rest =>
      fold_left (fun pathStr p =>
                   match pathStr with
                   | Panics e => Panics e
                   | Returns acc =>
                       match AnyKeyPath_String p with
                       | Panics e => Panics e
                       | Returns str => Returns (acc ++ "/" ++ str)%string
                       end
                   end)
                rest (AnyKeyPath_String k0)
  end.

(** The body of [Pretty()] after [mp.String()]: [url.PathUnescape], and
    [panic(err)] on its error. *)
Definition unescape_or_panic (rendered : string) : outcome string :=
  match url.PathUnescape rendered with
  | inr err => Panics (PanicEscapeError err)
  | inl path => Returns path
  end.

Definition AnyMerklePath_Pretty (mp : AnyMerklePath) : outcome string :=
  match AnyMerklePath_String mp with
  | Panics e => Panics e
  | Returns rendered => unescape_or_panic rendered
  end.

(** A key of known encoding, as the key of any encoding that it is. *)
Definition AnyKey_of (k : merkle.Key) : AnyKey :=
  {| key_name := merkle.name k;
     key_enc := match merkle.enc k with
                | merkle.KeyEncodingURL => 0
                | merkle.KeyEncodingHex => 1
                end |}.

Definition AnyMerklePath_of (mp : MerklePath) : AnyMerklePath :=
  {| AnyKeyPaths := map (map AnyKey_of) (KeyPaths mp) |}.

(** ** The interfaces of the exported package

    A value of an interface type is one of its implementations: the
    Merkle type of this file, or a type declared elsewhere, of which only
    the results of its methods are known. *)

Inductive Root : Type :=
| Root_Merkle (mr : MerkleRoot)
| Root_other (hash : bytes) (isEmpty : bool).

Definition Root_GetHash (r : Root) : bytes :=
  match r with Root_Merkle mr => MerkleRoot_GetHash mr | Root_other h _ => h end.

Definition Root_IsEmpty (r : Root) : bool :=
  match r with Root_Merkle mr => MerkleRoot_IsEmpty mr | Root_other _ e => e end.

Inductive Prefix : Type :=
| Prefix_Merkle (mp : MerklePrefix)
| Prefix_other (bytes_ : bytes) (isEmpty : bool).

Definition Prefix_Bytes (p : Prefix) : bytes :=
  match p with Prefix_Merkle mp => MerklePrefix_Bytes mp | Prefix_other b _ => b end.

Definition Prefix_IsEmpty (p : Prefix) : bool :=
  match p with Prefix_Merkle mp => MerklePrefix_IsEmpty mp | Prefix_other _ e => e end.

Inductive Path : Type :=
| Path_Merkle (mp : MerklePath)
| Path_other (str : string) (isEmpty : bool).

Definition Path_String (p : Path) : string :=
  match p with Path_Merkle mp => MerklePath_String mp | Path_other s _ => s end.

Definition Path_IsEmpty (p : Path) : bool :=
  match p with Path_Merkle mp => MerklePath_IsEmpty mp | Path_other _ e => e end.

(** [path.(MerklePath)]. *)
Definition as_MerklePath (p : Path) : option MerklePath :=
  match p with Path_Merkle mp => Some mp | Path_other _ _ => None end.

(** ** ApplyPrefix *)

Section PathComposer.

(** [host.DefaultPathValidator] (package 24-host), the path-format
    validator: [None] when the path string is well formed. *)
Variable DefaultPathValidator : string -> option error.

Definition empty_prefix_error : error := errors_New "prefix can't be empty".
Definition not_merklepath_error : error := errors_New "path is not a merklepath".

Definition ApplyPrefix (prefix : option Prefix) (path : option Path)
  : outcome (Path * option error) :=
  match path with
  | None => Panics NilDereference            (* path.String() on a nil interface *)
  | Some path =>
      match DefaultPathValidator (Path_String path) with
      | Some err => Returns (Path_Merkle {| KeyPaths := [] |}, Some err)
      | None =>
          match prefix with
          | None => Returns (Path_Merkle {| KeyPaths := [] |}, Some empty_prefix_error)
          | Some prefix =>
              if Prefix_IsEmpty prefix
              then Returns (Path_Merkle {| KeyPaths := [] |}, Some empty_prefix_error)
              else
                match as_MerklePath path with
                | None => Returns (Path_Merkle {| KeyPaths := [] |},
                                   Some not_merklepath_error)
                | Some mpath =>
                    let prefixPath :=
                      NewMerklePath [string_of_list_byte (Prefix_Bytes prefix)] in
                    let kpath := KeyPaths prefixPath ++ KeyPaths mpath in
                    Returns (Path_Merkle {| KeyPaths := kpath |}, None)
                end
          end
      end
  end.

End PathComposer.

(** ** The single-tree proof library (confio/ics23)

    The proof types are the library's; this file only looks at the
    variant of a proof and at the [Left] neighbour of a non-existence
    proof.  [Calculate], [VerifyMembership] and [VerifyNonMembership]
    are the library's functions. *)

Module ics23.

Class Types : Type := {
  ExistenceProof : Type;
  BatchProof : Type;
  CompressedBatchProof : Type;
  ProofSpec : Type
}.

Section Proofs.
Context {T : Types}.

Record NonExistenceProof : Type := {
  Key : bytes;
  Left : option ExistenceProof;
  Right : option ExistenceProof
}.

(** The [oneof] field of a commitment proof.  Each variant holds a
    pointer to its proof, which may be nil; the wrapper around that
    pointer is taken as allocated, as decoding produces it. *)
Inductive isCommitmentProof_Proof : Type :=
| CommitmentProof_Exist (Exist : option ExistenceProof)
| CommitmentProof_Nonexist (Nonexist : option NonExistenceProof)
| CommitmentProof_Batch (Batch : option BatchProof)
| CommitmentProof_Compressed (Compressed : option CompressedBatchProof).

Record CommitmentProof : Type := { Proof : option isCommitmentProof_Proof }.

End Proofs.

Class Library {T : Types} : Type := {
  (** The method [Calculate] of an existence proof; a nil receiver is an
      error. *)
  Calculate : option ExistenceProof -> bytes + error;
  (** [VerifyMembership(spec, root, proof, key, value)]. *)
  VerifyMembership :
    option ProofSpec -> bytes -> option CommitmentProof -> bytes -> bytes -> bool;
  (** [VerifyNonMembership(spec, root, proof, key)]. *)
  VerifyNonMembership :
    option ProofSpec -> bytes -> option CommitmentProof -> bytes -> bool
}.

End ics23.

(** ** Calls into the library, recorded *)

Section Trace.
Context {T : ics23.Types}.

Inductive Event : Type :=
| CalculateCall (p : option ics23.ExistenceProof)
| VerifyMembershipCall (spec : option ics23.ProofSpec) (root : bytes)
    (proof : option ics23.CommitmentProof) (key value : bytes)
| VerifyNonMembershipCall (spec : option ics23.ProofSpec) (root : bytes)
    (proof : option ics23.CommitmentProof) (key : bytes).

(** A computation that returns or panics, with the calls it made. *)
Definition M (A : Type) : Type := (outcome A * list Event)%type.

Definition ret {A : Type} (a : A) : M A := (Returns a, []).

Definition bind {A B : Type} (m : M A) (k : A -> M B) : M B :=
  match m with
  | (Returns a, t) => let (r, t') := k a in (r, t ++ t')
  | (Panics p, t) => (Panics p, t)
  end.

Definition lift {A : Type} (o : outcome A) : M A := (o, []).

Definition emit (e : Event) : M unit := (Returns tt, [e]).

End Trace.

Notation "x <- m ;; k" := (bind m (fun x => k))
  (at level 61, m at next level, right associativity).
Notation "m ;;; k" := (bind m (fun _ => k))
  (at level 61, right associativity).

(** ** MerkleProof *)

Section ChainedProof.
Context {T : ics23.Types}.

Record MerkleProof : Type := {
  Proofs : list (option ics23.CommitmentProof);
  Specs : list (option ics23.ProofSpec)
}.

(** The loop of [IsEmpty], at index [i] with [ps] the proofs from [i] on:
    [p == nil || proof.Specs[i] == nil], the right operand evaluated only
    when the left one is false. *)
Fixpoint IsEmpty_scan (specs : list (option ics23.ProofSpec)) (i : Z)
    (ps : list (option ics23.CommitmentProof)) : outcome bool :=
  match ps with
  | [] => Returns false
  | None :: _ => Returns true
  | Some _ :: rest =>
      match slice_index specs i with
      | Panics e => Panics e
      | Returns None => Returns true
      | Returns (Some _) => IsEmpty_scan specs (i + 1) rest
      end
  end.

Definition MerkleProof_IsEmpty (proof : MerkleProof) : outcome bool :=
  if (len (Proofs proof) =? 0) || (len (Specs proof) =? 0) then Returns true
  else IsEmpty_scan (Specs proof) 0 (Proofs proof).

Definition ValidateBasic (proof : MerkleProof) : outcome (option error) :=
  match MerkleProof_IsEmpty proof with
  | Panics e => Panics e
  | Returns true => Returns (Some ErrInvalidProof)
  | Returns false =>
      if negb (len (Proofs proof) =? len (Specs proof))
      then Returns (Some ErrInvalidProof)
      else Returns None
  end.

End ChainedProof.

(** ** VerifyMembership and VerifyNonMembership *)

Section ChainVerifier.
Context {T : ics23.Types} {L : ics23.Library}.

Definition call_Calculate (p : option ics23.ExistenceProof) : M (bytes + error) :=
  emit (CalculateCall p) ;;; ret (ics23.Calculate p).

Definition call_VerifyMembership (spec : option ics23.ProofSpec) (root : bytes)
    (proof : option ics23.CommitmentProof) (key value : bytes) : M bool :=
  emit (VerifyMembershipCall spec root proof key value) ;;;
  ret (ics23.VerifyMembership spec root proof key value).

Definition call_VerifyNonMembership (spec : option ics23.ProofSpec) (root : bytes)
    (proof : option ics23.CommitmentProof) (key : bytes) : M bool :=
  emit (VerifyNonMembershipCall spec root proof key) ;;;
  ret (ics23.VerifyNonMembership spec root proof key).

(** [p.Proof] through the pointer [p]. *)
Definition Proof_of (p : option ics23.CommitmentProof)
  : outcome (option ics23.isCommitmentProof_Proof) :=
  match p with
  | None => Panics NilDereference
  | Some c => Returns (ics23.Proof c)
  end.

(** The errors of the two procedures. *)
Definition err_empty_params : error :=
  Wrap ErrInvalidProof "empty params or proof".
Definition err_not_merkle_path : error :=
  Wrap ErrInvalidProof "path is not a merkle path for a merkle proof".
Definition err_chain_length (nproofs npaths : nat) : error :=
  Wrap ErrInvalidProof
    ("invalid chained proof. proof chain length " ++ fmt_d nproofs
       ++ " not the same as path length " ++ fmt_d npaths)%string.
Definition err_not_existence : error :=
  Wrap ErrInvalidProof "proof is not an existence proof".
Definition err_not_nonexistence : error :=
  Wrap ErrInvalidProof "proof is not a nonexistence proof".
Definition err_calculate (err : error) : error :=
  Wrap ErrInvalidProof (Error_text err).
Definition err_invalid_for_path (path : Path) : error :=
  Wrap ErrInvalidProof ("invalid proof for path: " ++ Path_String path)%string.

(** [x == nil || x.IsEmpty()] on an interface value. *)
Definition nil_or {A : Type} (isEmpty : A -> bool) (x : option A) : bool :=
  match x with None => true | Some a => isEmpty a end.

Definition is_error (e : option error) : bool :=
  match e with Some _ => true | None => false end.

(** The loop of [VerifyMembership] at index [i], [ps] being the proofs
    from [i] on and [value] the running value. *)
Fixpoint VerifyMembership_loop (proof : MerkleProof) (root : Root) (path : Path)
    (mpath : MerklePath) (i : Z) (ps : list (option ics23.CommitmentProof))
    (value : bytes) : M (option error) :=
  match ps with
  | [] => ret None
  | p :: rest =>
      kp <- lift (slice_index (KeyPaths mpath) (len (KeyPaths mpath) - i - 1)) ;;
      let subpath := list_byte_of_string (merkle.KeyPath_String kp) in
      pf <- lift (Proof_of p) ;;
      match pf with
      | Some (ics23.CommitmentProof_Exist existProof) =>
          r <- call_Calculate existProof ;;
          match r with
          | inr err => ret (Some (err_calculate err))
          | inl subroot =>
              if negb (i =? len (Proofs proof) - 1) then
                spec <- lift (slice_index (Specs proof) i) ;;
                ok <- call_VerifyMembership spec subroot p subpath value ;;
                if negb ok then ret (Some (err_invalid_for_path path))
                else VerifyMembership_loop proof root path mpath (i + 1) rest subroot
              else
                spec <- lift (slice_index (Specs proof) i) ;;
                ok <- call_VerifyMembership spec (Root_GetHash root) p subpath value ;;
                if negb ok then ret (Some (err_invalid_for_path path))
                else VerifyMembership_loop proof root path mpath (i + 1) rest subroot
          end
      | _ => ret (Some err_not_existence)
      end
  end.

Definition MerkleProof_VerifyMembership (proof : MerkleProof) (root : option Root)
    (path : option Path) (value : bytes) : M (option error) :=
  vb <- lift (ValidateBasic proof) ;;
  if is_error vb || nil_or Root_IsEmpty root || nil_or Path_IsEmpty path
     || (len value =? 0)
  then ret (Some err_empty_params)
  else
    match root, path with
    | Some root, Some path =>
        match as_MerklePath path with
        | None => ret (Some err_not_merkle_path)
        | Some mpath =>
            if len (Proofs proof) =? len (KeyPaths mpath)
            then ret (Some (err_chain_length (List.length (Proofs proof))
                                             (List.length (KeyPaths mpath))))
            else VerifyMembership_loop proof root path mpath 0 (Proofs proof) value
        end
    | _, _ => lift (Panics NilDereference)   (* not reached: nil is rejected above *)
    end.

(** The loop of [VerifyNonMembership]; [value] and [subroot] are the two
    variables declared before the loop. *)
Fixpoint VerifyNonMembership_loop (proof : MerkleProof) (root : Root) (path : Path)
    (mpath : MerklePath) (i : Z) (ps : list (option ics23.CommitmentProof))
    (value subroot : bytes) : M (option error) :=
  match ps with
  | [] => ret None
  | p :: rest =>
      kp <- lift (slice_index (KeyPaths mpath) (len (KeyPaths mpath) - i - 1)) ;;
      let subpath := list_byte_of_string (merkle.KeyPath_String kp) in
      if i =? 0 then
        pf <- lift (Proof_of p) ;;
        match pf with
        | Some (ics23.CommitmentProof_Nonexist nonexist) =>
            match nonexist with
            | None => lift (Panics NilDereference)     (* nonexistProof.Nonexist.Left *)
            | Some ne =>
                r <- call_Calculate (ics23.Left ne) ;;
                match r with
                | inr err => ret (Some (err_calculate err))
                | inl subroot =>
                    spec <- lift (slice_index (Specs proof) i) ;;
                    ok <- call_VerifyNonMembership spec subroot p subpath ;;
                    if negb ok then ret (Some (err_invalid_for_path path))
                    else VerifyNonMembership_loop proof root path mpath (i + 1) rest
                           subroot subroot
                end
            end
        | _ => ret (Some err_not_nonexistence)
        end
      else if negb (i =? len (Proofs proof) - 1) then
        pf <- lift (Proof_of p) ;;
        match pf with
        | Some (ics23.CommitmentProof_Exist existProof) =>
            r <- call_Calculate existProof ;;
            match r with
            | inr err => ret (Some (err_calculate err))
            | inl subroot =>
                spec <- lift (slice_index (Specs proof) i) ;;
                ok <- call_VerifyMembership spec subroot p subpath value ;;
                if negb ok then ret (Some (err_invalid_for_path path))
                else VerifyNonMembership_loop proof root path mpath (i + 1) rest
                       subroot subroot
            end
        | _ => ret (Some err_not_existence)
        end
      else
        spec <- lift (slice_index (Specs proof) i) ;;
        ok <- call_VerifyMembership spec (Root_GetHash root) p subpath value ;;
        if negb ok then ret (Some (err_invalid_for_path path))
        else VerifyNonMembership_loop proof root path mpath (i + 1) rest subroot subroot
  end.

Definition MerkleProof_VerifyNonMembership (proof : MerkleProof) (root : option Root)
    (path : option Path) : M (option error) :=
  vb <- lift (ValidateBasic proof) ;;
  if is_error vb || nil_or Root_IsEmpty root || nil_or Path_IsEmpty path
  then ret (Some err_empty_params)
  else
    match root, path with
    | Some root, Some path =>
        match as_MerklePath path with
        | None => ret (Some err_not_merkle_path)
        | Some mpath =>
            if len (Proofs proof) =? len (KeyPaths mpath)
            then ret (Some (err_chain_length (List.length (Proofs proof))
                                             (List.length (KeyPaths mpath))))
            else VerifyNonMembership_loop proof root path mpath 0 (Proofs proof) [] []
        end
    | _, _ => lift (Panics NilDereference)   (* not reached: nil is rejected above *)
    end.

End ChainVerifier.

(** ** The connection handshake handlers *)

Module connection.

(** Modelled from the spec: [sdk.Result], [sdk.NewError] and the method
    [Result] of an SDK error are declared in the SDK's [types] package,
    which is not among the sources at hand.  A result carries a numeric
    code and a codespace; [sdk.Result{}] has every field zero; the result
    of an error carries the error's code and codespace, and a log text
    computed from the error. *)
Record Result : Type := {
  Code : N;
  Codespace : string;
  Data : bytes;
  Log : string;
  GasWanted : N;
  GasUsed : N
}.

Definition Result_zero : Result :=
  {| Code := 0; Codespace := ""; Data := []; Log := "";
     GasWanted := 0; GasUsed := 0 |}.

Record sdkError : Type := { codespace : string; code : N; message : string }.

Definition NewError (cs : string) (c : N) (msg : string) : sdkError :=
  {| codespace := cs; code := c; message := msg |}.

Section Handlers.

Context {Context_ Identifier Connection_ Timeout_ Proofs_ Object_ : Type}.

(** The log text of an error result ([ABCILog]), computed by the SDK. *)
Variable ABCILog : sdkError -> string.

Definition sdkError_Result (err : sdkError) : Result :=
  {| Code := code err; Codespace := codespace err; Data := [];
     Log := ABCILog err; GasWanted := 0; GasUsed := 0 |}.

Record MsgOpenInit : Type := {
  init_ConnectionID : Identifier;
  init_Connection : Connection_;
  init_CounterpartyClient : Identifier;
  init_NextTimeout : Timeout_
}.

Record MsgOpenTry : Type := {
  try_Proofs : Proofs_;
  try_ConnectionID : Identifier;
  try_Connection : Connection_;
  try_CounterpartyClient : Identifier;
  try_Timeout : Timeout_;
  try_NextTimeout : Timeout_
}.

Record MsgOpenAck : Type := {
  ack_Proofs : Proofs_;
  ack_ConnectionID : Identifier;
  ack_Timeout : Timeout_;
  ack_NextTimeout : Timeout_
}.

Record MsgOpenConfirm : Type := {
  confirm_Proofs : Proofs_;
  confirm_ConnectionID : Identifier;
  confirm_Timeout : Timeout_
}.

(** The handshaker: each operation gives back a handshake object and an
    error. *)
Record Handshaker : Type := {
  OpenInit :
    Context_ -> Identifier -> Connection_ -> Identifier -> Timeout_
    -> Object_ * option error;
  OpenTry :
    Context_ -> Proofs_ -> Identifier -> Connection_ -> Identifier -> Timeout_
    -> Timeout_ -> Object_ * option error;
  OpenAck :
    Context_ -> Proofs_ -> Identifier -> Timeout_ -> Timeout_
    -> Object_ * option error;
  OpenConfirm :
    Context_ -> Proofs_ -> Identifier -> Timeout_ -> Object_ * option error
}.

Definition HandleMsgOpenInit (ctx : Context_) (msg : MsgOpenInit) (man : Handshaker)
  : Result :=
  let '(_, err) :=
    OpenInit man ctx (init_ConnectionID msg) (init_Connection msg)
             (init_CounterpartyClient msg) (init_NextTimeout msg) in
  match err with
  | Some err => sdkError_Result (NewError "ibc" 100 (Error_text err))
  | None => Result_zero
  end.

Definition HandleMsgOpenTry (ctx : Context_) (msg : MsgOpenTry) (man : Handshaker)
  : Result :=
  let '(_, err) :=
    OpenTry man ctx (try_Proofs msg) (try_ConnectionID msg) (try_Connection msg)
            (try_CounterpartyClient msg) (try_Timeout msg) (try_NextTimeout msg) in
  match err with
  | Some err => sdkError_Result (NewError "ibc" 200 (Error_text err))
  | None => Result_zero
  end.

Definition HandleMsgOpenAck (ctx : Context_) (msg : MsgOpenAck) (man : Handshaker)
  : Result :=
  let '(_, err) :=
    OpenAck man ctx (ack_Proofs msg) (ack_ConnectionID msg) (ack_Timeout msg)
            (ack_NextTimeout msg) in
  match err with
  | Some err => sdkError_Result (NewError "ibc" 300 (Error_text err))
  | None => Result_zero
  end.

Definition HandleMsgOpenConfirm (ctx : Context_) (msg : MsgOpenConfirm)
    (man : Handshaker) : Result :=
  let '(_, err) :=
    OpenConfirm man ctx (confirm_Proofs msg) (confirm_ConnectionID msg)
                (confirm_Timeout msg) in
  match err with
  | Some err => sdkError_Result (NewError "ibc" 400 (Error_text err))
  | None => Result_zero
  end.

End Handlers.

End connection.

(** ** What the specification names

    The error kinds of the specification, and the kind of each error
    value of the code: a wrapped error has the kind of its cause, and the
    two unregistered errors of [ApplyPrefix] are told apart by their
    text. *)

Inductive ErrorKind : Type := InvalidProof | EmptyPrefix | InvalidPath | NotAMerklePath.

Fixpoint error_kind (e : error) : option ErrorKind :=
  match e with
  | ErrInvalidProof => Some InvalidProof
  | ErrInvalidPath => Some InvalidPath
  | Wrap cause _ => error_kind cause
  | errors_New text =>
      if String.eqb text "prefix can't be empty" then Some EmptyPrefix
      else if String.eqb text "path is not a merklepath" then Some NotAMerklePath
      else None
  end.

(** Percent-encoding, as the specification of [Pretty] reads it: a string
    is valid when every [%] is followed by two hexadecimal digits, and
    decoding replaces each such triple by the byte it denotes. *)
Inductive PctDecodes : string -> string -> Prop :=
| PctDecodes_nil : PctDecodes "" ""
| PctDecodes_plain c s out :
    c <> "%"%char -> PctDecodes s out -> PctDecodes (String c s) (String c out)
| PctDecodes_triple h1 h2 s out :
    url.ishex h1 = true -> url.ishex h2 = true -> PctDecodes s out ->
    PctDecodes (String "%" (String h1 (String h2 s)))
               (String (ascii_of_N (16 * url.unhex h1 + url.unhex h2)) out).

Definition ValidPct (s : string) : Prop := exists out, PctDecodes s out.

(** Percent-decoding written out on its own: the value of a hexadecimal
    digit is read off the digit, a string is valid percent-encoding when
    every [%] is followed by two hexadecimal digits, and decoding puts
    the byte [16 * high + low] for each such triple. *)
Fixpoint position_in (digits : string) (c : ascii) : option N :=
  match digits with
  | EmptyString => None
  | String d rest =>
      if Ascii.eqb c d then Some 0%N
      else option_map N.succ (position_in rest c)
  end.

(** The value of a hexadecimal digit is its place among the sixteen
    digits, in lower case or in upper case. *)
Definition hex_value (c : ascii) : option N :=
  match position_in "0123456789abcdef" c with
  | Some v => Some v
  | None => position_in "0123456789ABCDEF" c
  end.

Inductive PercentDecoded : string -> string -> Prop :=
| PercentDecoded_nil : PercentDecoded "" ""
| PercentDecoded_plain c s out :
    c <> "%"%char -> PercentDecoded s out -> PercentDecoded (String c s) (String c out)
| PercentDecoded_escape h1 h2 v1 v2 s out :
    hex_value h1 = Some v1 -> hex_value h2 = Some v2 -> PercentDecoded s out ->
    PercentDecoded (String "%" (String h1 (String h2 s)))
                   (String (ascii_of_N (16 * v1 + v2)) out).

Definition ValidPercentEncoding (s : string) : Prop := exists out, PercentDecoded s out.

(** Sample paths with keys of any encoding: the key ["a b"], URL
    encoded, and the same key with the encoding [KeyEncodingMax]. *)
Definition url_key_path : AnyMerklePath :=
  {| AnyKeyPaths := [[ {| key_name := list_byte_of_string "a b"; key_enc := 0 |} ]] |}.

Definition max_key_path : AnyMerklePath :=
  {| AnyKeyPaths := [[ {| key_name := list_byte_of_string "a b"; key_enc := 2 |} ]] |}.

(** The path is of another type than [MerklePath]. *)
Definition not_merkle (p : Path) : bool :=
  match as_MerklePath p with None => true | Some _ => false end.

(** What a handler with error code [c] answers to the handshaker's
    error result [err]: the empty result, or an error result in codespace
    ["ibc"] with code [c]. *)
Definition handler_answer (ABCILog : connection.sdkError -> string) (c : N)
    (err : option error) (r : connection.Result) : Prop :=
  match err with
  | None => r = connection.Result_zero
  | Some e =>
      r = connection.sdkError_Result ABCILog
            (connection.NewError "ibc" c (Error_text e))
      /\ connection.Codespace r = "ibc" /\ connection.Code r = c
      /\ r <> connection.Result_zero
  end.

Section SpecChain.
Context {T : ics23.Types} {L : ics23.Library}.

(** The membership algorithm as the specification gives it, over [n]
    proofs and [n] path levels: at index [i] the sub-proof is an
    existence proof, its root is recomputed, and [value] is verified
    under that root, or under the trusted root at the last index, at the
    path level [n-1-i]; the recomputed root is the next value. *)
Fixpoint spec_membership_from (root : bytes) (levels : list merkle.KeyPath)
    (ps : list (option ics23.CommitmentProof * option ics23.ProofSpec))
    (value : bytes) : bool :=
  match ps, levels with
  | [], [] => true
  | (Some {| ics23.Proof := Some (ics23.CommitmentProof_Exist e) |} as p, spec) :: rest,
    level :: levels' =>
      match ics23.Calculate e with
      | inr _ => false
      | inl subroot =>
          let key := list_byte_of_string (merkle.KeyPath_String level) in
          ics23.VerifyMembership spec
            (match rest with [] => root | _ => subroot end) p key value
          && spec_membership_from root levels' rest subroot
      end
  | _, _ => false
  end.

Definition present {A : Type} (x : option A) : bool :=
  match x with Some _ => true | None => false end.

(** A valid chained membership proof for [value] under [root]: the two
    lists have one length, which is not zero, and no nil entry; root and
    value have bytes; and the algorithm accepts. *)
Definition spec_valid_membership_chain (proof : MerkleProof) (root : bytes)
    (mpath : MerklePath) (value : bytes) : bool :=
  (List.length (Proofs proof) =? List.length (Specs proof))%nat
  && negb (List.length (Proofs proof) =? 0)%nat
  && forallb present (Proofs proof) && forallb present (Specs proof)
  && negb (len root =? 0) && negb (len value =? 0)
  && spec_membership_from root (rev (KeyPaths mpath))
       (combine (Proofs proof) (Specs proof)) value.

End SpecChain.

(** ** A small instance of the proof library, for running the code

    An existence proof states a key, a value and the root it hashes to;
    it verifies for exactly that key, value and root.  A non-existence
    proof verifies for its key under the root of its left neighbour. *)

Module Sample.

Record Existence : Type := { ekey : bytes; evalue : bytes; eroot : bytes }.

Definition types : ics23.Types :=
  {| ics23.ExistenceProof := Existence;
     ics23.BatchProof := unit;
     ics23.CompressedBatchProof := unit;
     ics23.ProofSpec := unit |}.

Fixpoint bytes_eqb (a b : bytes) : bool :=
  match a, b with
  | [], [] => true
  | x :: a', y :: b' => Byte.eqb x y && bytes_eqb a' b'
  | _, _ => false
  end.

Definition calculate (p : option Existence) : bytes + error :=
  match p with
  | Some e => inl (eroot e)
  | None => inr (errors_New "Existence Proof needs defined LeafOp")
  end.

Definition verifyMembership (spec : option unit) (root : bytes)
    (proof : option (@ics23.CommitmentProof types)) (key value : bytes) : bool :=
  match proof with
  | Some {| ics23.Proof := Some (ics23.CommitmentProof_Exist (Some e)) |} =>
      bytes_eqb root (eroot e) && bytes_eqb key (ekey e) && bytes_eqb value (evalue e)
  | _ => false
  end.

Definition verifyNonMembership (spec : option unit) (root : bytes)
    (proof : option (@ics23.CommitmentProof types)) (key : bytes) : bool :=
  match proof with
  | Some {| ics23.Proof := Some (ics23.CommitmentProof_Nonexist (Some ne)) |} =>
      match ics23.Left ne with
      | Some l => bytes_eqb root (eroot l) && bytes_eqb key (ics23.Key ne)
                  && negb (bytes_eqb key (ekey l))
      | None => false
      end
  | _ => false
  end.

Definition library : @ics23.Library types :=
  @ics23.Build_Library types calculate verifyMembership verifyNonMembership.

Definition b (s : string) : bytes := list_byte_of_string s.

Definition exist (key value root : string) : option (@ics23.CommitmentProof types) :=
  Some (@ics23.Build_CommitmentProof types
          (Some (@ics23.CommitmentProof_Exist types
                   (Some {| ekey := b key; evalue := b value; eroot := b root |})))).

Definition nonexist (key leftKey leftValue root : string)
  : option (@ics23.CommitmentProof types) :=
  Some (@ics23.Build_CommitmentProof types
          (Some (@ics23.CommitmentProof_Nonexist types
                   (Some (@ics23.Build_NonExistenceProof types (b key)
                            (Some {| ekey := b leftKey; evalue := b leftValue;
                                     eroot := b root |})
                            None))))).

Definition spec : option unit := Some tt.

Definition proof_of (ps : list (option (@ics23.CommitmentProof types)))
    (ss : list (option unit)) : @MerkleProof types :=
  {| Proofs := ps; Specs := ss |}.

Definition root (h : string) : option Root := Some (Root_Merkle (NewMerkleRoot (b h))).

(** A path with one level per string, each level of one key. *)
Definition levels (keys : list string) : MerklePath :=
  {| KeyPaths := flat_map (fun k => KeyPaths (NewMerklePath [k])) keys |}.

Definition merkle_path (keys : list string) : option Path :=
  Some (Path_Merkle (levels keys)).

(** One tree: ["a"] holds ["v1"] under the root ["h"]. *)
Definition one_level : @MerkleProof types :=
  proof_of [exist "/a" "v1" "h"] [spec].

(** Two trees: ["b"] holds ["v1"] in the subtree of root ["r0"], and
    ["a"] holds ["r0"] under the root ["h"]; the path is ["a"], ["b"]. *)
Definition two_level : @MerkleProof types :=
  proof_of [exist "/b" "v1" "r0"; exist "/a" "r0" "h"] [spec; spec].

(** Two proofs, one spec, none of them nil. *)
Definition two_proofs_one_spec : @MerkleProof types :=
  proof_of [exist "/b" "v1" "r0"; exist "/a" "r0" "h"] [spec].

(** Two proofs for a path of one level: ["a"] holds ["v1"] in the
    subtree of root ["r0"]. *)
Definition two_proofs_over_a : @MerkleProof types :=
  proof_of [exist "/a" "v1" "r0"; exist "/a" "r0" "h"] [spec; spec].

Definition absent_two_proofs_over_a : @MerkleProof types :=
  proof_of [nonexist "/a" "/0" "v" "r0"; exist "/a" "r0" "h"] [spec; spec].

(** One tree of root ["r0"] in which ["b"] is absent, its left neighbour
    being ["a"]. *)
Definition absent_one_level : @MerkleProof types :=
  proof_of [nonexist "/b" "/a" "v" "r0"] [spec].

(** Modelled from the spec: the path-format validator
    [host.DefaultPathValidator] (package 24-host) is not among the
    sources at hand; the specification gives it as a validator that
    answers ok or an error on a path string.  This one rejects exactly
    the blank path, with the host package's invalid-path error. *)
Definition rejectBlank (path : string) : option error :=
  if String.eqb path "" then Some (Wrap ErrInvalidPath "path cannot be blank")
  else None.

(** One proof under a path of two levels: ["b"] holds ["v1"] under the
    root ["h"]. *)
Definition one_proof_two_levels : @MerkleProof types :=
  proof_of [exist "/b" "v1" "h"] [spec].

(** Two proofs under a path of three levels: ["c"] is absent from the
    subtree of root ["r0"], and ["b"] holds ["r0"] under the root ["h"]. *)
Definition absent_two_level : @MerkleProof types :=
  proof_of [nonexist "/c" "/b" "v" "r0"; exist "/b" "r0" "h"] [spec; spec].

Definition prefix (p : string) : option Prefix :=
  Some (Prefix_Merkle (NewMerklePrefix (b p))).

End Sample.

(** * Properties *)

(** ** Percent-decoding *)

Section PercentDecoding.

Lemma ascii_cases (P : ascii -> Prop) :
  (forall b0 b1 b2 b3 b4 b5 b6 b7, P (Ascii b0 b1 b2 b3 b4 b5 b6 b7)) ->
  forall c, P c.
Proof. intros H c. destruct c. apply H. Qed.

Lemma unhex_values (c : ascii) :
  In (url.unhex c) [0; 1; 2; 3; 4; 5; 6; 7; 8; 9; 10; 11; 12; 13; 14; 15]%N.
Proof.
  revert c. apply ascii_cases.
  intros [] [] [] [] [] [] [] []; vm_compute; tauto.
Qed.

Lemma nibbles_join (a b : N) :
  In a [0; 1; 2; 3; 4; 5; 6; 7; 8; 9; 10; 11; 12; 13; 14; 15]%N ->
  In b [0; 1; 2; 3; 4; 5; 6; 7; 8; 9; 10; 11; 12; 13; 14; 15]%N ->
  N.lor (N.shiftl a 4) b = (16 * a + b)%N.
Proof.
  intros Ha Hb. simpl in Ha, Hb.
  repeat (destruct Ha as [<- | Ha]; [ | ]); try contradiction;
    repeat (destruct Hb as [<- | Hb]; [ | ]); try contradiction; reflexivity.
Qed.

Lemma unhex_byte (h1 h2 : ascii) :
  N.lor (N.shiftl (url.unhex h1) 4) (url.unhex h2)
  = (16 * url.unhex h1 + url.unhex h2)%N.
Proof. apply nibbles_join; apply unhex_values. Qed.

(** Every decoding derivation is what the two passes compute. *)
Lemma PctDecodes_unescape (s out : string) :
  PctDecodes s out -> url.unescape_check s = None /\ url.unescape_write s = out.
Proof.
  induction 1 as [ | c s out Hc _ [IHc IHw] | h1 h2 s out H1 H2 _ [IHc IHw] ].
  - split; reflexivity.
  - simpl. destruct (Ascii.eqb_spec c "%"); [contradiction | ].
    split; [assumption | now rewrite IHw].
  - simpl. rewrite H1, H2. simpl. rewrite unhex_byte, IHw. split; trivial.
Qed.

(** When the first pass finds no bad escape, the second pass is a
    decoding.  By induction on a bound of the length, since an escape
    consumes three bytes at once. *)
Lemma unescape_PctDecodes_bounded (n : nat) :
  forall s, (String.length s <= n)%nat -> url.unescape_check s = None ->
            PctDecodes s (url.unescape_write s).
Proof.
  induction n as [ | n IH]; intros s Hlen Hcheck.
  - destruct s; [constructor | simpl in Hlen; lia].
  - destruct s as [ | c rest]; [constructor | ].
    simpl in Hcheck |- *.
    destruct (Ascii.eqb_spec c "%") as [-> | Hc].
    + destruct rest as [ | h1 [ | h2 rest']]; try discriminate.
      destruct (url.ishex h1) eqn:H1; [ | discriminate].
      destruct (url.ishex h2) eqn:H2; [ | discriminate].
      simpl in Hcheck. rewrite unhex_byte.
      apply PctDecodes_triple; trivial.
      apply IH; [simpl in Hlen; lia | assumption].
    + apply PctDecodes_plain; trivial.
      apply IH; [simpl in Hlen; lia | assumption].
Qed.

Lemma unescape_PctDecodes (s : string) :
  url.unescape_check s = None -> PctDecodes s (url.unescape_write s).
Proof. apply (unescape_PctDecodes_bounded (String.length s)). lia. Qed.

Lemma PathUnescape_decodes (s out : string) :
  url.PathUnescape s = inl out <-> PctDecodes s out.
Proof.
  unfold url.PathUnescape. split.
  - destruct (url.unescape_check s) eqn:Hc; [discriminate | ].
    intros [= <-]. now apply unescape_PctDecodes.
  - intros H. apply PctDecodes_unescape in H as [-> ->]. reflexivity.
Qed.

Lemma PathUnescape_fails (s : string) :
  (exists bad, url.PathUnescape s = inr bad) <-> ~ ValidPct s.
Proof.
  unfold ValidPct. split.
  - intros [bad Hbad] [out Hout].
    apply PathUnescape_decodes in Hout. congruence.
  - intros Hnot. destruct (url.PathUnescape s) as [out | bad] eqn:E.
    + exfalso. apply Hnot. exists out. now apply PathUnescape_decodes.
    + now exists bad.
Qed.

(** On keys of known encoding: [Pretty] returns a string exactly when
    that string is the percent-decoding of [String()], and it panics
    exactly when [String()] is not valid percent-encoding. *)
Theorem Pretty_decodes_or_panics (mp : MerklePath) :
  (forall out, MerklePath_Pretty mp = Returns out
               <-> PctDecodes (MerklePath_String mp) out)
  /\ ((exists p, MerklePath_Pretty mp = Panics p)
      <-> ~ ValidPct (MerklePath_String mp)).
Proof.
  unfold MerklePath_Pretty. split.
  - intros out. rewrite <- PathUnescape_decodes.
    destruct (url.PathUnescape (MerklePath_String mp)); split; congruence.
  - rewrite <- PathUnescape_fails.
    destruct (url.PathUnescape (MerklePath_String mp)) as [out | bad]; split.
    + intros [p Hp]. discriminate.
    + intros [bad Hbad]. discriminate.
    + intros _. now exists bad.
    + intros _. now exists (PanicEscapeError bad).
Qed.

(** *** What [String()] renders is always valid percent-encoding *)

Lemma PctDecodes_app (s1 out1 s2 out2 : string) :
  PctDecodes s1 out1 -> PctDecodes s2 out2 ->
  PctDecodes (s1 ++ s2)%string (out1 ++ out2)%string.
Proof.
  induction 1; intros H2; simpl; [assumption | | ].
  - apply PctDecodes_plain; auto.
  - apply PctDecodes_triple; auto.
Qed.

Lemma escaped_byte_decodes (c : ascii) :
  url.ishex (url.upperhex_at (N.shiftr (url.byte_val c) 4)) = true
  /\ url.ishex (url.upperhex_at (N.land (url.byte_val c) 15)) = true
  /\ ascii_of_N (16 * url.unhex (url.upperhex_at (N.shiftr (url.byte_val c) 4))
                 + url.unhex (url.upperhex_at (N.land (url.byte_val c) 15))) = c.
Proof.
  revert c. apply ascii_cases.
  intros [] [] [] [] [] [] [] []; vm_compute; repeat split.
Qed.

Lemma unescaped_byte_plain (c : ascii) : url.shouldEscape c = false -> c <> "%"%char.
Proof. intros H ->. discriminate. Qed.

(** Escaping, then decoding, gives the bytes back. *)
Lemma PathEscape_decodes (s : string) : PctDecodes (url.PathEscape s) s.
Proof.
  induction s as [ | c s IH]; simpl; [constructor | ].
  destruct (url.shouldEscape c) eqn:Hc.
  - destruct (escaped_byte_decodes c) as (H1 & H2 & Hback).
    rewrite <- Hback at 3. now apply PctDecodes_triple.
  - apply PctDecodes_plain; [now apply unescaped_byte_plain | assumption].
Qed.

Lemma PathUnescape_PathEscape (s : string) :
  url.PathUnescape (url.PathEscape s) = inl s.
Proof. apply PathUnescape_decodes, PathEscape_decodes. Qed.

Lemma hex_digits_plain (c : ascii) :
  url.upperhex_at (N.shiftr (url.byte_val c) 4) <> "%"%char
  /\ url.upperhex_at (N.land (url.byte_val c) 15) <> "%"%char.
Proof.
  revert c. apply ascii_cases.
  intros [] [] [] [] [] [] [] []; vm_compute; split; discriminate.
Qed.

Lemma fmt_X_plain (s : string) : PctDecodes (merkle.fmt_X s) (merkle.fmt_X s).
Proof.
  induction s as [ | c s IH]; simpl; [constructor | ].
  destruct (hex_digits_plain c) as [H1 H2].
  now repeat apply PctDecodes_plain.
Qed.

Lemma Key_String_valid (k : merkle.Key) : ValidPct (merkle.Key_String k).
Proof.
  unfold merkle.Key_String. destruct (merkle.enc k).
  - eexists. apply (PctDecodes_app "/" "/").
    + apply PctDecodes_plain; [discriminate | constructor].
    + apply PathEscape_decodes.
  - eexists. apply (PctDecodes_app "/x:" "/x:").
    + repeat (apply PctDecodes_plain; [discriminate | ]). constructor.
    + apply fmt_X_plain.
Qed.

Lemma ValidPct_app (s1 s2 : string) :
  ValidPct s1 -> ValidPct s2 -> ValidPct (s1 ++ s2)%string.
Proof.
  intros [o1 H1] [o2 H2]. exists (o1 ++ o2)%string. now apply PctDecodes_app.
Qed.

Lemma KeyPath_String_from_valid (pth : merkle.KeyPath) :
  forall res, ValidPct res ->
    ValidPct (fold_left (fun res k => (res ++ merkle.Key_String k)%string) pth res).
Proof.
  induction pth as [ | k pth IH]; intros res Hres; simpl; [assumption | ].
  apply IH, ValidPct_app; [assumption | apply Key_String_valid].
Qed.

Lemma KeyPath_String_valid (pth : merkle.KeyPath) : ValidPct (merkle.KeyPath_String pth).
Proof. apply KeyPath_String_from_valid. exists "". constructor. Qed.

Lemma MerklePath_String_valid (mp : MerklePath) : ValidPct (MerklePath_String mp).
Proof.
  unfold MerklePath_String. destruct (KeyPaths mp) as [ | k0 rest].
  - exists "". constructor.
  - generalize (KeyPath_String_valid k0).
    generalize (merkle.KeyPath_String k0) as acc.
    induction rest as [ | p rest IH]; intros acc Hacc; simpl; [assumption | ].
    apply IH. apply ValidPct_app; [assumption | ].
    apply (ValidPct_app "/"); [ | apply KeyPath_String_valid].
    exists "/". apply PctDecodes_plain; [discriminate | constructor].
Qed.

(** On keys of known encoding [Pretty] returns: what [String()] renders
    is always valid percent-encoding. *)
Lemma Pretty_returns (mp : MerklePath) : exists out, MerklePath_Pretty mp = Returns out.
Proof.
  destruct (MerklePath_String_valid mp) as [out Hout].
  exists out. unfold MerklePath_Pretty.
  apply PathUnescape_decodes in Hout. now rewrite Hout.
Qed.

End PercentDecoding.

(** ** ApplyPrefix *)

Section PathComposerProperties.

Variable validator : string -> option error.

(** The validator runs first: what it rejects is reported whatever the
    prefix. *)
Lemma ApplyPrefix_invalid_path (prefix : option Prefix) (path : Path) (err : error) :
  validator (Path_String path) = Some err ->
  ApplyPrefix validator prefix (Some path)
  = Returns (Path_Merkle {| KeyPaths := [] |}, Some err).
Proof. intros H. unfold ApplyPrefix. now rewrite H. Qed.

(** C6, as the code has it.  With a nil or empty prefix and a path, the
    call fails: with the validator's error when the validator rejects the
    path's string, and with the empty-prefix error otherwise. *)
Theorem ApplyPrefix_empty_prefix (prefix : option Prefix) (path : Path) :
  nil_or Prefix_IsEmpty prefix = true ->
  ApplyPrefix validator prefix (Some path)
  = Returns (Path_Merkle {| KeyPaths := [] |},
             Some (match validator (Path_String path) with
                   | Some err => err
                   | None => empty_prefix_error
                   end))
  /\ error_kind empty_prefix_error = Some EmptyPrefix.
Proof.
  intros Hempty. split; [ | reflexivity].
  unfold ApplyPrefix.
  destruct (validator (Path_String path)); [reflexivity | ].
  destruct prefix as [pre | ]; [ | reflexivity].
  simpl in Hempty. now rewrite Hempty.
Qed.

(** A prefix with bytes and a Merkle path accepted by the validator: the
    level made of the prefix comes first, the levels of the path follow. *)
Lemma ApplyPrefix_prepends (prefix : Prefix) (mpath : MerklePath) :
  validator (MerklePath_String mpath) = None ->
  Prefix_IsEmpty prefix = false ->
  ApplyPrefix validator (Some prefix) (Some (Path_Merkle mpath))
  = Returns (Path_Merkle
               {| KeyPaths :=
                    [ [ {| merkle.name :=
                             list_byte_of_string
                               (string_of_list_byte (Prefix_Bytes prefix));
                           merkle.enc := merkle.KeyEncodingURL |} ] ]
                    ++ KeyPaths mpath |},
             None).
Proof.
  intros Hvalid Hpre. unfold ApplyPrefix. simpl. rewrite Hvalid, Hpre. reflexivity.
Qed.

End PathComposerProperties.

(** C6, a path the validator accepts: a nil prefix gives the empty-prefix
    error. *)
Lemma ApplyPrefix_empty_prefix_witness :
  nil_or Prefix_IsEmpty None = true
  /\ ApplyPrefix Sample.rejectBlank None
       (Some (Path_Merkle (NewMerklePath ["connections"])))
     = Returns (Path_Merkle {| KeyPaths := [] |}, Some empty_prefix_error).
Proof.
  split; [reflexivity | ].
  apply (ApplyPrefix_empty_prefix Sample.rejectBlank None
           (Path_Merkle (NewMerklePath ["connections"]))).
  reflexivity.
Defined.

(** C6 as stated fails: with a nil prefix and the empty path, whose
    string is blank, the error is the validator's, of kind [InvalidPath],
    and not the empty-prefix error. *)
Lemma ApplyPrefix_nil_prefix_blank_path :
  ApplyPrefix Sample.rejectBlank None (Some (Path_Merkle {| KeyPaths := [] |}))
  = Returns (Path_Merkle {| KeyPaths := [] |},
             Some (Wrap ErrInvalidPath "path cannot be blank"))
  /\ error_kind (Wrap ErrInvalidPath "path cannot be blank") = Some InvalidPath
  /\ error_kind (Wrap ErrInvalidPath "path cannot be blank") <> Some EmptyPrefix.
Proof. repeat split. discriminate. Qed.

(** ** The handshake handlers *)

Section HandlerProperties.

Context {Context_ Identifier Connection_ Timeout_ Proofs_ Object_ : Type}.
Variable ABCILog : connection.sdkError -> string.

(** C10.  Each handler returns the empty result when the handshaker's
    operation gives no error, and otherwise an error result in codespace
    ["ibc"] with the code of its message type: 100, 200, 300, 400. *)
Theorem handlers_answer (ctx : Context_)
    (man : @connection.Handshaker Context_ Identifier Connection_ Timeout_ Proofs_
             Object_) :
  (forall msg,
      handler_answer ABCILog 100
        (snd (connection.OpenInit man ctx (connection.init_ConnectionID msg)
                (connection.init_Connection msg)
                (connection.init_CounterpartyClient msg)
                (connection.init_NextTimeout msg)))
        (connection.HandleMsgOpenInit ABCILog ctx msg man))
  /\ (forall msg,
      handler_answer ABCILog 200
        (snd (connection.OpenTry man ctx (connection.try_Proofs msg)
                (connection.try_ConnectionID msg) (connection.try_Connection msg)
                (connection.try_CounterpartyClient msg) (connection.try_Timeout msg)
                (connection.try_NextTimeout msg)))
        (connection.HandleMsgOpenTry ABCILog ctx msg man))
  /\ (forall msg,
      handler_answer ABCILog 300
        (snd (connection.OpenAck man ctx (connection.ack_Proofs msg)
                (connection.ack_ConnectionID msg) (connection.ack_Timeout msg)
                (connection.ack_NextTimeout msg)))
        (connection.HandleMsgOpenAck ABCILog ctx msg man))
  /\ (forall msg,
      handler_answer ABCILog 400
        (snd (connection.OpenConfirm man ctx (connection.confirm_Proofs msg)
                (connection.confirm_ConnectionID msg)
                (connection.confirm_Timeout msg)))
        (connection.HandleMsgOpenConfirm ABCILog ctx msg man)).
Proof.
  unfold handler_answer, connection.HandleMsgOpenInit, connection.HandleMsgOpenTry,
    connection.HandleMsgOpenAck, connection.HandleMsgOpenConfirm.
  repeat split; intros msg;
    match goal with
    | |- context [snd ?call] => destruct call as [obj [e | ]]
    end; simpl; repeat split; discriminate.
Qed.

End HandlerProperties.

(** ** The structural gate *)

(** Arithmetic on the lengths of slices. *)
Ltac len_lia := unfold len in *; cbn [List.length] in *; lia.

Section GateProperties.
Context {T : ics23.Types}.

Lemma slice_index_in_range {A : Type} (s : list A) (i : Z) :
  0 <= i < len s -> exists a, slice_index s i = Returns a
                              /\ nth_error s (Z.to_nat i) = Some a.
Proof.
  intros [Hlo Hhi]. unfold slice_index, len in *.
  destruct (Z.ltb_spec i 0); [lia | ].
  destruct (nth_error s (Z.to_nat i)) as [a | ] eqn:E; [now exists a | ].
  apply nth_error_None in E. lia.
Qed.

Lemma slice_index_out_of_range {A : Type} (s : list A) (i : Z) :
  i < 0 \/ len s <= i -> slice_index s i = Panics (IndexOutOfRange i (List.length s)).
Proof.
  intros H. unfold slice_index, len in *.
  destruct (Z.ltb_spec i 0); [reflexivity | ].
  destruct (nth_error s (Z.to_nat i)) as [a | ] eqn:E; [ | reflexivity].
  assert (nth_error s (Z.to_nat i) <> None) as Hn by congruence.
  apply nth_error_Some in Hn. lia.
Qed.

(** The scan returns [false] only on proofs that are all present. *)
Lemma IsEmpty_scan_false (specs : list (option ics23.ProofSpec)) :
  forall ps i, IsEmpty_scan specs i ps = Returns false ->
               Forall (fun p => p <> None) ps.
Proof.
  induction ps as [ | p rest IH]; intros i Hscan; [constructor | ].
  simpl in Hscan. destruct p as [c | ]; [ | discriminate].
  destruct (slice_index specs i) as [[sp | ] | e]; try discriminate.
  constructor; [discriminate | now apply IH with (i + 1)].
Qed.

(** The scan never panics while the proofs fit under the specs. *)
Lemma IsEmpty_scan_fits (specs : list (option ics23.ProofSpec)) :
  forall ps i, 0 <= i -> i + len ps <= len specs ->
    exists b, IsEmpty_scan specs i ps = Returns b.
Proof.
  induction ps as [ | p rest IH]; intros i Hi Hfit.
  - now exists false.
  - simpl. destruct p as [c | ]; [ | now exists true].
    unfold len in Hfit. simpl in Hfit.
    destruct (slice_index_in_range specs i) as [[sp | ] [-> _]].
    + len_lia.
    + apply IH; [lia | len_lia].
    + now exists true.
Qed.

(** What passing the gate means. *)
Lemma ValidateBasic_passes (proof : MerkleProof) :
  ValidateBasic proof = Returns None ->
  len (Proofs proof) = len (Specs proof) /\ 0 < len (Proofs proof)
  /\ Forall (fun p => p <> None) (Proofs proof).
Proof.
  unfold ValidateBasic, MerkleProof_IsEmpty. intros H.
  destruct (len (Proofs proof) =? 0) eqn:Hp; [discriminate | ].
  destruct (len (Specs proof) =? 0) eqn:Hs; [discriminate | ].
  simpl in H.
  destruct (IsEmpty_scan (Specs proof) 0 (Proofs proof)) as [[ | ] | e] eqn:Hscan;
    try discriminate.
  destruct (Z.eqb_spec (len (Proofs proof)) (len (Specs proof))) as [Heq | ];
    [ | discriminate].
  apply IsEmpty_scan_false in Hscan.
  apply Z.eqb_neq in Hp. unfold len in *. repeat split; trivial; lia.
Qed.

(** An empty proof is rejected. *)
Lemma ValidateBasic_IsEmpty (proof : MerkleProof) :
  MerkleProof_IsEmpty proof = Returns true ->
  ValidateBasic proof = Returns (Some ErrInvalidProof).
Proof. intros H. unfold ValidateBasic. now rewrite H. Qed.

(** Lists of different lengths never pass the gate. *)
Lemma ValidateBasic_length_mismatch (proof : MerkleProof) :
  len (Proofs proof) <> len (Specs proof) ->
  ValidateBasic proof <> Returns None.
Proof. intros Hne H. apply ValidateBasic_passes in H. tauto. Qed.

(** With fewer proofs than specs the gate answers, and rejects. *)
Lemma ValidateBasic_fewer_proofs (proof : MerkleProof) :
  len (Proofs proof) < len (Specs proof) ->
  ValidateBasic proof = Returns (Some ErrInvalidProof).
Proof.
  intros Hlt. unfold ValidateBasic, MerkleProof_IsEmpty.
  destruct ((len (Proofs proof) =? 0) || (len (Specs proof) =? 0)); [reflexivity | ].
  destruct (IsEmpty_scan_fits (Specs proof) (Proofs proof) 0) as [b ->]; [lia | lia | ].
  destruct b; [reflexivity | ].
  destruct (Z.eqb_spec (len (Proofs proof)) (len (Specs proof))); [lia | reflexivity].
Qed.

(** With more proofs than specs, all present, the scan of [IsEmpty] reads
    [Specs] one past its end. *)
Lemma IsEmpty_scan_overruns (specs : list (option ics23.ProofSpec)) :
  forall ps i, 0 <= i -> i <= len specs -> len specs < i + len ps ->
    Forall (fun p => p <> None) ps ->
    (forall j, i <= j < len specs ->
               exists sp, nth_error specs (Z.to_nat j) = Some (Some sp)) ->
    IsEmpty_scan specs i ps
    = Panics (IndexOutOfRange (len specs) (List.length specs)).
Proof.
  induction ps as [ | p rest IH]; intros i Hi Hle Hlt Hall Hspecs.
  - unfold len in Hlt at 2. simpl in Hlt. lia.
  - simpl. inversion Hall as [ | ? ? Hp Hrest]; subst.
    destruct p as [c | ]; [ | congruence].
    destruct (Z.eq_dec i (len specs)) as [-> | Hne].
    + rewrite slice_index_out_of_range by lia. reflexivity.
    + destruct (slice_index_in_range specs i) as [a [Hidx Hnth]]; [lia | ].
      rewrite Hidx.
      destruct (Hspecs i) as [sp Hsp]; [lia | ].
      rewrite Hsp in Hnth. injection Hnth as <-.
      apply IH; trivial; try lia.
      * unfold len in *. simpl in Hlt. lia.
      * intros j Hj. apply Hspecs. lia.
Qed.

Lemma slice_index_nth {A : Type} (s : list A) (j : nat) (a : A) :
  nth_error s j = Some a -> slice_index s (Z.of_nat j) = Returns a.
Proof.
  intros H. unfold slice_index.
  destruct (Z.ltb_spec (Z.of_nat j) 0); [lia | ].
  now rewrite Nat2Z.id, H.
Qed.

(** More proofs than specs, and no nil entry anywhere: [IsEmpty] panics. *)
Lemma IsEmpty_overruns (proof : MerkleProof) :
  0 < len (Specs proof) < len (Proofs proof) ->
  Forall (fun p => p <> None) (Proofs proof) ->
  Forall (fun sp => sp <> None) (Specs proof) ->
  MerkleProof_IsEmpty proof
  = Panics (IndexOutOfRange (len (Specs proof)) (List.length (Specs proof))).
Proof.
  intros [Hpos Hlt] Hproofs Hspecs. unfold MerkleProof_IsEmpty.
  destruct (Z.eqb_spec (len (Proofs proof)) 0); [lia | ].
  destruct (Z.eqb_spec (len (Specs proof)) 0); [lia | ].
  cbn [orb].
  apply IsEmpty_scan_overruns; trivial; try lia.
  intros j Hj.
  destruct (nth_error (Specs proof) (Z.to_nat j)) as [[sp | ] | ] eqn:E.
  - now exists sp.
  - apply nth_error_In in E. rewrite Forall_forall in Hspecs.
    now apply Hspecs in E.
  - apply nth_error_None in E. len_lia.
Qed.

(** Lists of one length with no nil entry: the scan finds nothing. *)
Lemma IsEmpty_scan_present (specs : list (option ics23.ProofSpec)) :
  Forall (fun sp => sp <> None) specs ->
  forall ps i, 0 <= i -> i + len ps <= len specs ->
    Forall (fun p => p <> None) ps ->
    IsEmpty_scan specs i ps = Returns false.
Proof.
  intros Hspecs. induction ps as [ | p rest IH]; intros i Hi Hfit Hall.
  - reflexivity.
  - inversion Hall as [ | ? ? Hp Hrest]; subst.
    assert (len (p :: rest) = 1 + len rest) as Hcons
        by len_lia.
    assert (0 <= len rest) by len_lia.
    cbn [IsEmpty_scan]. destruct p as [c | ]; [ | congruence].
    destruct (slice_index_in_range specs i) as [sp [-> Hnth]]; [lia | ].
    destruct sp as [sp | ].
    + apply IH; trivial; lia.
    + apply nth_error_In in Hnth. rewrite Forall_forall in Hspecs.
      now apply Hspecs in Hnth.
Qed.

Lemma ValidateBasic_well_formed (proof : MerkleProof) :
  len (Proofs proof) = len (Specs proof) -> 0 < len (Proofs proof) ->
  Forall (fun p => p <> None) (Proofs proof) ->
  Forall (fun sp => sp <> None) (Specs proof) ->
  ValidateBasic proof = Returns None.
Proof.
  intros Hlen Hpos Hproofs Hspecs. unfold ValidateBasic, MerkleProof_IsEmpty.
  destruct (Z.eqb_spec (len (Proofs proof)) 0); [lia | ].
  destruct (Z.eqb_spec (len (Specs proof)) 0); [lia | ].
  cbn [orb]. rewrite IsEmpty_scan_present; trivial; try lia.
  rewrite Hlen, Z.eqb_refl. reflexivity.
Qed.

End GateProperties.

(** ** The two verification procedures *)

Section ChainVerifierProperties.
Context {T : ics23.Types} {L : ics23.Library}.

Lemma bind_lift_Returns {A B : Type} (a : A) (k : A -> M B) :
  bind (lift (Returns a)) k = k a.
Proof. unfold bind, lift. now destruct (k a). Qed.

Lemma bind_lift_Panics {A B : Type} (p : panic) (k : A -> M B) :
  bind (lift (Panics p)) k = (Panics p, []).
Proof. reflexivity. Qed.

Lemma bind_Returns_inv {A B : Type} (m : M A) (k : A -> M B) (b : B)
    (t : list Event) :
  bind m k = (Returns b, t) ->
  exists a t1 t2, m = (Returns a, t1) /\ k a = (Returns b, t2) /\ t = t1 ++ t2.
Proof.
  unfold bind. destruct m as [[a | p] t1]; [ | discriminate].
  destruct (k a) as [r t2] eqn:Hk. intros [= -> <-].
  now exists a, t1, t2.
Qed.

Lemma bind_call_Calculate {B : Type} (p : option ics23.ExistenceProof)
    (k : bytes + error -> M B) :
  bind (call_Calculate p) k
  = (fst (k (ics23.Calculate p)), CalculateCall p :: snd (k (ics23.Calculate p))).
Proof. unfold call_Calculate, bind, emit, ret. simpl. now destruct (k _). Qed.

Lemma bind_call_VerifyMembership {B : Type} spec root proof key value
    (k : bool -> M B) :
  bind (call_VerifyMembership spec root proof key value) k
  = (fst (k (ics23.VerifyMembership spec root proof key value)),
     VerifyMembershipCall spec root proof key value
       :: snd (k (ics23.VerifyMembership spec root proof key value))).
Proof. unfold call_VerifyMembership, bind, emit, ret. simpl. now destruct (k _). Qed.

Lemma bind_call_VerifyNonMembership {B : Type} spec root proof key
    (k : bool -> M B) :
  bind (call_VerifyNonMembership spec root proof key) k
  = (fst (k (ics23.VerifyNonMembership spec root proof key)),
     VerifyNonMembershipCall spec root proof key
       :: snd (k (ics23.VerifyNonMembership spec root proof key))).
Proof. unfold call_VerifyNonMembership, bind, emit, ret. simpl. now destruct (k _). Qed.

(** Every error the two procedures build is an [InvalidProof]. *)
Lemma procedure_errors_are_InvalidProof (path : Path) (err : error) (n m : nat) :
  Forall (fun e => error_kind e = Some InvalidProof)
    [err_empty_params; err_not_merkle_path; err_chain_length n m; err_not_existence;
     err_not_nonexistence; err_calculate err; err_invalid_for_path path].
Proof. repeat constructor. Qed.

(** C2, as the code has it.  When the structural gate answers, and it
    rejects the proof, or the root is nil or empty, or the path is nil or
    empty, or the value has no bytes, or the path is of another type than
    [MerklePath], then [VerifyMembership] fails with an error of kind
    [InvalidProof] and has called nothing of the proof library: the error
    is "empty params or proof" in the first four cases and "path is not a
    merkle path" in the last alone. *)
Theorem VerifyMembership_rejects_before_crypto (proof : MerkleProof)
    (root : option Root) (path : option Path) (value : bytes) (vb : option error) :
  ValidateBasic proof = Returns vb ->
  (is_error vb || nil_or Root_IsEmpty root || nil_or Path_IsEmpty path
   || (len value =? 0)) || nil_or not_merkle path = true ->
  MerkleProof_VerifyMembership proof root path value
  = (Returns (Some (if is_error vb || nil_or Root_IsEmpty root
                       || nil_or Path_IsEmpty path || (len value =? 0)
                    then err_empty_params else err_not_merkle_path)), [])
  /\ error_kind err_empty_params = Some InvalidProof
  /\ error_kind err_not_merkle_path = Some InvalidProof.
Proof.
  intros Hvb Hcond. split; [ | split; reflexivity].
  unfold MerkleProof_VerifyMembership. rewrite Hvb, bind_lift_Returns.
  destruct (is_error vb || nil_or Root_IsEmpty root || nil_or Path_IsEmpty path
            || (len value =? 0)) eqn:Hpre; [reflexivity | ].
  simpl in Hcond.
  repeat (apply orb_false_iff in Hpre as [Hpre ?]).
  destruct root as [r | ]; [ | discriminate].
  destruct path as [p | ]; [ | discriminate].
  unfold nil_or, not_merkle in Hcond.
  destruct (as_MerklePath p); [discriminate | reflexivity].
Qed.

(** X17.  The same gate in front of [VerifyNonMembership]: once
    [ValidateBasic] has answered, a rejected proof, a nil or empty root
    or path, or a path of another type gives an invalid-proof error
    before any call into the proof library. *)
Lemma VerifyNonMembership_rejects_before_crypto (proof : MerkleProof)
    (root : option Root) (path : option Path) (vb : option error) :
  ValidateBasic proof = Returns vb ->
  (is_error vb || nil_or Root_IsEmpty root || nil_or Path_IsEmpty path)
  || nil_or not_merkle path = true ->
  MerkleProof_VerifyNonMembership proof root path
  = (Returns (Some (if is_error vb || nil_or Root_IsEmpty root
                       || nil_or Path_IsEmpty path
                    then err_empty_params else err_not_merkle_path)), []).
Proof.
  intros Hvb Hcond.
  unfold MerkleProof_VerifyNonMembership. rewrite Hvb, bind_lift_Returns.
  destruct (is_error vb || nil_or Root_IsEmpty root || nil_or Path_IsEmpty path)
    eqn:Hpre; [reflexivity | ].
  simpl in Hcond.
  repeat (apply orb_false_iff in Hpre as [Hpre ?]).
  destruct root as [r | ]; [ | discriminate].
  destruct path as [p | ]; [ | discriminate].
  unfold nil_or, not_merkle in Hcond.
  destruct (as_MerklePath p); [discriminate | reflexivity].
Qed.

(** A panic of the gate is a panic of both procedures, before any call. *)
Lemma gate_panic_propagates (proof : MerkleProof) (root : option Root)
    (path : option Path) (value : bytes) (p : panic) :
  ValidateBasic proof = Panics p ->
  MerkleProof_VerifyMembership proof root path value = (Panics p, [])
  /\ MerkleProof_VerifyNonMembership proof root path = (Panics p, []).
Proof.
  intros H. unfold MerkleProof_VerifyMembership, MerkleProof_VerifyNonMembership.
  rewrite H. split; reflexivity.
Qed.

(** The length guard as written: a chain with as many proofs as the path
    has levels never verifies. *)
Lemma VerifyMembership_equal_lengths_rejected (proof : MerkleProof)
    (root : option Root) (mpath : MerklePath) (value : bytes) :
  len (Proofs proof) = len (KeyPaths mpath) ->
  fst (MerkleProof_VerifyMembership proof root (Some (Path_Merkle mpath)) value)
  <> Returns None.
Proof.
  intros Hlen. unfold MerkleProof_VerifyMembership.
  destruct (ValidateBasic proof) as [vb | p]; [ | discriminate].
  rewrite bind_lift_Returns.
  destruct (is_error vb || nil_or Root_IsEmpty root
            || nil_or Path_IsEmpty (Some (Path_Merkle mpath)) || (len value =? 0));
    [discriminate | ].
  destruct root as [r | ]; [ | discriminate].
  simpl. rewrite Hlen, Z.eqb_refl. discriminate.
Qed.

Lemma VerifyNonMembership_equal_lengths_rejected (proof : MerkleProof)
    (root : option Root) (mpath : MerklePath) :
  len (Proofs proof) = len (KeyPaths mpath) ->
  fst (MerkleProof_VerifyNonMembership proof root (Some (Path_Merkle mpath)))
  <> Returns None.
Proof.
  intros Hlen. unfold MerkleProof_VerifyNonMembership.
  destruct (ValidateBasic proof) as [vb | p]; [ | discriminate].
  rewrite bind_lift_Returns.
  destruct (is_error vb || nil_or Root_IsEmpty root
            || nil_or Path_IsEmpty (Some (Path_Merkle mpath)));
    [discriminate | ].
  destruct root as [r | ]; [ | discriminate].
  simpl. rewrite Hlen, Z.eqb_refl. discriminate.
Qed.

(** A chain whose first sub-proof is an existence proof: once the gate
    has answered, [VerifyNonMembership] fails with an [InvalidProof], and
    calls nothing of the proof library. *)
Lemma VerifyNonMembership_existence_first (proof : MerkleProof) (root : option Root)
    (path : option Path) (e : option ics23.ExistenceProof)
    (rest : list (option ics23.CommitmentProof)) (vb : option error) :
  Proofs proof
  = Some {| ics23.Proof := Some (ics23.CommitmentProof_Exist e) |} :: rest ->
  ValidateBasic proof = Returns vb ->
  exists err,
    MerkleProof_VerifyNonMembership proof root path = (Returns (Some err), [])
    /\ error_kind err = Some InvalidProof.
Proof.
  intros Hproofs Hvb.
  unfold MerkleProof_VerifyNonMembership. rewrite Hvb, bind_lift_Returns.
  destruct (is_error vb || nil_or Root_IsEmpty root || nil_or Path_IsEmpty path)
    eqn:Hpre; [now exists err_empty_params | ].
  apply orb_false_iff in Hpre as [Hpre Hpath].
  apply orb_false_iff in Hpre as [_ Hroot].
  destruct root as [r | ]; [ | discriminate].
  destruct path as [p | ]; [ | discriminate].
  destruct p as [mpath | s b]; simpl; [ | now exists err_not_merkle_path].
  destruct (len (Proofs proof) =? len (KeyPaths mpath));
    [eexists; split; [reflexivity | reflexivity] | ].
  rewrite Hproofs. simpl.
  simpl in Hpath. unfold MerklePath_IsEmpty in Hpath.
  apply Z.eqb_neq in Hpath.
  destruct (slice_index_in_range (KeyPaths mpath) (len (KeyPaths mpath) - 0 - 1))
    as [kp [-> _]].
  { len_lia. }
  now exists err_not_nonexistence.
Qed.

(** The loops, one iteration unfolded. *)
Lemma VerifyMembership_loop_cons (proof : MerkleProof) (root : Root) (path : Path)
    (mpath : MerklePath) (i : Z) (p : option ics23.CommitmentProof)
    (rest : list (option ics23.CommitmentProof)) (value : bytes) :
  VerifyMembership_loop proof root path mpath i (p :: rest) value
  = (kp <- lift (slice_index (KeyPaths mpath) (len (KeyPaths mpath) - i - 1)) ;;
     pf <- lift (Proof_of p) ;;
     match pf with
     | Some (ics23.CommitmentProof_Exist existProof) =>
         r <- call_Calculate existProof ;;
         match r with
         | inr err => ret (Some (err_calculate err))
         | inl subroot =>
             spec <- lift (slice_index (Specs proof) i) ;;
             ok <- call_VerifyMembership spec
                     (if i =? len (Proofs proof) - 1 then Root_GetHash root
                      else subroot)
                     p (list_byte_of_string (merkle.KeyPath_String kp)) value ;;
             if ok then VerifyMembership_loop proof root path mpath (i + 1) rest subroot
             else ret (Some (err_invalid_for_path path))
         end
     | _ => ret (Some err_not_existence)
     end).
Proof.
  cbn [VerifyMembership_loop].
  destruct (slice_index (KeyPaths mpath) _) as [kp | ]; [ | reflexivity].
  rewrite !bind_lift_Returns.
  destruct (Proof_of p) as [[[e | | | ] | ] | ]; try reflexivity.
  rewrite !bind_lift_Returns, !bind_call_Calculate.
  destruct (ics23.Calculate e) as [subroot | err]; [ | reflexivity].
  destruct (i =? len (Proofs proof) - 1); cbn [negb];
    (destruct (slice_index (Specs proof) i) as [spec | ]; [ | reflexivity]);
    rewrite !bind_lift_Returns, !bind_call_VerifyMembership;
    now destruct (ics23.VerifyMembership _ _ _ _ _).
Qed.

(** Where the chain is anchored.  A successful run of the membership
    loop ends with the check of the last sub-proof under the hash of the
    root that the caller gave, at the path level that the reverse index
    selects. *)
Lemma VerifyMembership_loop_anchored (proof : MerkleProof) (root : Root) (path : Path)
    (mpath : MerklePath) :
  forall ps i value t,
    VerifyMembership_loop proof root path mpath i ps value = (Returns None, t) ->
    ps <> [] -> i + len ps = len (Proofs proof) ->
    exists t' spec kp v,
      t = t' ++ [VerifyMembershipCall spec (Root_GetHash root) (last ps None)
                   (list_byte_of_string (merkle.KeyPath_String kp)) v]
      /\ slice_index (Specs proof) (len (Proofs proof) - 1) = Returns spec
      /\ slice_index (KeyPaths mpath) (len (KeyPaths mpath) - len (Proofs proof))
         = Returns kp.
Proof.
  induction ps as [ | p rest IH]; intros i value t Hrun Hne Hlen; [congruence | ].
  rewrite VerifyMembership_loop_cons in Hrun.
  destruct (slice_index (KeyPaths mpath) (len (KeyPaths mpath) - i - 1)) as [kp | ]
    eqn:Hkp; [rewrite bind_lift_Returns in Hrun | discriminate].
  destruct (Proof_of p) as [[[e | | | ] | ] | ];
    try discriminate; rewrite bind_lift_Returns in Hrun; try discriminate.
  rewrite bind_call_Calculate in Hrun.
  destruct (ics23.Calculate e) as [subroot | err]; [ | discriminate].
  destruct (slice_index (Specs proof) i) as [spec | ] eqn:Hspec;
    [rewrite bind_lift_Returns in Hrun | discriminate].
  rewrite bind_call_VerifyMembership in Hrun.
  destruct (ics23.VerifyMembership spec _ p _ value); [ | discriminate].
  destruct rest as [ | p' rest'].
  - simpl in Hrun. injection Hrun as <-.
    assert (i = len (Proofs proof) - 1) as Hi
        by len_lia.
    rewrite <- Hi, Hspec, Z.eqb_refl.
    exists [CalculateCall e], spec, kp, value.
    repeat split. rewrite <- Hkp. f_equal. lia.
  - destruct (VerifyMembership_loop proof root path mpath (i + 1) (p' :: rest') subroot)
      as [r t2] eqn:Hrest.
    simpl in Hrun. injection Hrun as -> <-.
    destruct (IH _ _ _ Hrest) as (t' & sp & kp' & v & -> & Hsp & Hkp');
      [discriminate | len_lia | ].
    eexists (_ :: _ :: t'), sp, kp', v. split; [reflexivity | now split].
Qed.

(** A successful [VerifyMembership] has, as its last call, verified the
    last sub-proof under the hash of the caller's root; and the chain had
    fewer proofs than the path has levels. *)
Lemma VerifyMembership_success_anchored (proof : MerkleProof) (root : Root)
    (path : Path) (value : bytes) (t : list Event) :
  MerkleProof_VerifyMembership proof (Some root) (Some path) value = (Returns None, t) ->
  exists mpath t' spec key v,
    path = Path_Merkle mpath
    /\ t = t' ++ [VerifyMembershipCall spec (Root_GetHash root)
                    (last (Proofs proof) None) key v]
    /\ slice_index (Specs proof) (len (Proofs proof) - 1) = Returns spec
    /\ len (Proofs proof) < len (KeyPaths mpath).
Proof.
  unfold MerkleProof_VerifyMembership. intros Hrun.
  destruct (ValidateBasic proof) as [vb | ] eqn:Hvb; [ | discriminate].
  rewrite bind_lift_Returns in Hrun.
  destruct vb as [err | ]; [discriminate | ].
  apply ValidateBasic_passes in Hvb as (_ & Hpos & _).
  destruct (is_error None || nil_or Root_IsEmpty (Some root)
            || nil_or Path_IsEmpty (Some path) || (len value =? 0));
    [discriminate | ].
  destruct path as [mpath | ]; [ | discriminate]. cbn [as_MerklePath] in Hrun.
  destruct (Z.eqb_spec (len (Proofs proof)) (len (KeyPaths mpath))) as [ | Hne];
    [discriminate | ].
  apply VerifyMembership_loop_anchored in Hrun
    as (t' & spec & kp & v & -> & Hspec & Hkp); [ | | lia].
  - exists mpath, t', spec, (list_byte_of_string (merkle.KeyPath_String kp)), v.
    repeat split; trivial.
    destruct (Z.lt_ge_cases (len (KeyPaths mpath) - len (Proofs proof)) 0) as [Hneg | ].
    + rewrite slice_index_out_of_range in Hkp by lia. discriminate.
    + lia.
  - intros Hnil. rewrite Hnil in Hpos. unfold len in Hpos. simpl in Hpos. lia.
Qed.

(** With a proof that passed the gate and fewer proofs than path levels,
    the membership loop reads every list within its bounds: it returns. *)
Lemma VerifyMembership_loop_returns (proof : MerkleProof) (root : Root) (path : Path)
    (mpath : MerklePath) :
  len (Proofs proof) = len (Specs proof) ->
  len (Proofs proof) <= len (KeyPaths mpath) ->
  forall ps i value,
    0 <= i -> i + len ps = len (Proofs proof) -> Forall (fun p => p <> None) ps ->
    exists r t, VerifyMembership_loop proof root path mpath i ps value = (Returns r, t).
Proof.
  intros Hspecs Hlevels.
  induction ps as [ | p rest IH]; intros i value Hi Hlen Hall.
  - now exists None, [].
  - rewrite VerifyMembership_loop_cons.
    assert (len (p :: rest) = 1 + len rest) as Hcons
        by len_lia.
    assert (0 <= len rest) by len_lia.
    destruct (slice_index_in_range (KeyPaths mpath) (len (KeyPaths mpath) - i - 1))
      as [kp [-> _]]; [lia | ].
    rewrite bind_lift_Returns.
    inversion Hall as [ | ? ? Hp Hrest]; subst.
    destruct p as [c | ]; [ | congruence]. cbn [Proof_of].
    rewrite bind_lift_Returns.
    destruct (ics23.Proof c) as [[e | | | ] | ]; try (now eexists _, _).
    rewrite bind_call_Calculate.
    destruct (ics23.Calculate e) as [subroot | err]; [ | now eexists _, _].
    destruct (slice_index_in_range (Specs proof) i) as [spec [-> _]]; [lia | ].
    rewrite bind_lift_Returns, bind_call_VerifyMembership.
    destruct (ics23.VerifyMembership spec _ _ _ value); [ | now eexists _, _].
    destruct (IH (i + 1) subroot) as (r & t & ->); trivial; try lia.
    now eexists _, _.
Qed.

Lemma VerifyMembership_shorter_chain_returns (proof : MerkleProof)
    (root : option Root) (mpath : MerklePath) (value : bytes) (vb : option error) :
  ValidateBasic proof = Returns vb ->
  len (Proofs proof) < len (KeyPaths mpath) ->
  exists r t,
    MerkleProof_VerifyMembership proof root (Some (Path_Merkle mpath)) value
    = (Returns r, t).
Proof.
  intros Hvb Hshort. unfold MerkleProof_VerifyMembership.
  rewrite Hvb, bind_lift_Returns.
  destruct (is_error vb || _ || _ || _) eqn:Hpre; [now eexists _, _ | ].
  repeat (apply orb_false_iff in Hpre as [Hpre ?]).
  destruct vb; [discriminate | ].
  destruct root as [r | ]; [ | discriminate]. cbn [as_MerklePath].
  destruct (len (Proofs proof) =? len (KeyPaths mpath)); [now eexists _, _ | ].
  apply ValidateBasic_passes in Hvb as (Hspecs & Hpos & Hall).
  apply VerifyMembership_loop_returns; trivial; lia.
Qed.

(** With more proofs than path levels the membership procedure never
    succeeds: it stops on an error, or reads [KeyPaths] at index -1. *)
Lemma VerifyMembership_longer_chain_fails (proof : MerkleProof) (root : option Root)
    (path : option Path) (mpath : MerklePath) (value : bytes) :
  path = Some (Path_Merkle mpath) ->
  len (KeyPaths mpath) <= len (Proofs proof) ->
  fst (MerkleProof_VerifyMembership proof root path value) <> Returns None.
Proof.
  intros -> Hlong Hrun.
  destruct (MerkleProof_VerifyMembership proof root (Some (Path_Merkle mpath)) value)
    as [r t] eqn:E. simpl in Hrun. subst r.
  destruct root as [root | ].
  - apply VerifyMembership_success_anchored in E
      as (mp & _ & _ & _ & _ & [= <-] & _ & _ & Hlt). lia.
  - unfold MerkleProof_VerifyMembership in E.
    destruct (ValidateBasic proof) as [vb | ]; [ | discriminate].
    rewrite bind_lift_Returns in E.
    destruct (is_error vb); discriminate.
Qed.

(** The non-membership loop past index 0: a successful run ends with the
    membership check of the last sub-proof under the caller's root. *)
Lemma VerifyNonMembership_loop_anchored (proof : MerkleProof) (root : Root)
    (path : Path) (mpath : MerklePath) :
  forall ps i value subroot t,
    0 < i ->
    VerifyNonMembership_loop proof root path mpath i ps value subroot
    = (Returns None, t) ->
    ps <> [] -> i + len ps = len (Proofs proof) ->
    exists t' spec key v,
      t = t' ++ [VerifyMembershipCall spec (Root_GetHash root) (last ps None) key v].
Proof.
  induction ps as [ | p rest IH]; intros i value subroot t Hi Hrun Hne Hlen;
    [congruence | ].
  cbn [VerifyNonMembership_loop] in Hrun.
  destruct (slice_index (KeyPaths mpath) (len (KeyPaths mpath) - i - 1)) as [kp | ];
    [rewrite bind_lift_Returns in Hrun | discriminate].
  destruct (Z.eqb_spec i 0); [lia | ].
  assert (len (p :: rest) = 1 + len rest) as Hcons
      by len_lia.
  destruct (Z.eqb_spec i (len (Proofs proof) - 1)) as [Hlast | Hmid];
    cbn [negb] in Hrun.
  - assert (rest = []) as ->.
    { destruct rest; [trivial | ]. len_lia. }
    destruct (slice_index (Specs proof) i) as [spec | ];
      [rewrite bind_lift_Returns in Hrun | discriminate].
    rewrite bind_call_VerifyMembership in Hrun.
    destruct (ics23.VerifyMembership spec _ p _ value); [ | discriminate].
    simpl in Hrun. injection Hrun as <-.
    now exists [], spec, (list_byte_of_string (merkle.KeyPath_String kp)), value.
  - destruct (Proof_of p) as [[[e | | | ] | ] | ];
      try discriminate; rewrite bind_lift_Returns in Hrun; try discriminate.
    rewrite bind_call_Calculate in Hrun.
    destruct (ics23.Calculate e) as [subroot' | err]; [ | discriminate].
    destruct (slice_index (Specs proof) i) as [spec | ];
      [rewrite bind_lift_Returns in Hrun | discriminate].
    rewrite bind_call_VerifyMembership in Hrun.
    destruct (ics23.VerifyMembership spec _ p _ value); [ | discriminate].
    cbn [negb] in Hrun.
    destruct (VerifyNonMembership_loop proof root path mpath (i + 1) rest
                subroot' subroot') as [r t2] eqn:Hrest.
    simpl in Hrun. injection Hrun as -> <-.
    assert (rest <> []) as Hrest_ne.
    { intros ->. len_lia. }
    destruct (IH (i + 1) subroot' subroot' t2) as (t' & sp & key & v & ->);
      trivial; try lia.
    eexists (_ :: _ :: t'), sp, key, v.
    destruct rest; [congruence | reflexivity].
Qed.

(** A successful [VerifyNonMembership] over two proofs or more has, as
    its last call, verified the last sub-proof under the caller's root. *)
Lemma VerifyNonMembership_success_anchored (proof : MerkleProof) (root : Root)
    (path : Path) (t : list Event) :
  1 < len (Proofs proof) ->
  MerkleProof_VerifyNonMembership proof (Some root) (Some path) = (Returns None, t) ->
  exists t' spec key v,
    t = t' ++ [VerifyMembershipCall spec (Root_GetHash root)
                 (last (Proofs proof) None) key v].
Proof.
  unfold MerkleProof_VerifyNonMembership. intros Hmany Hrun.
  destruct (ValidateBasic proof) as [vb | ]; [ | discriminate].
  rewrite bind_lift_Returns in Hrun.
  destruct (is_error vb || nil_or Root_IsEmpty (Some root)
            || nil_or Path_IsEmpty (Some path)); [discriminate | ].
  destruct (as_MerklePath path) as [mpath | ]; [ | discriminate].
  destruct (len (Proofs proof) =? len (KeyPaths mpath)); [discriminate | ].
  destruct (Proofs proof) as [ | p0 tail] eqn:Hproofs;
    [unfold len in Hmany; simpl in Hmany; lia | ].
  assert (tail <> []) as Htail.
  { intros ->. unfold len in Hmany. simpl in Hmany. lia. }
  cbn [VerifyNonMembership_loop] in Hrun.
  destruct (slice_index (KeyPaths mpath) (len (KeyPaths mpath) - 0 - 1)) as [kp | ];
    [rewrite bind_lift_Returns in Hrun | discriminate].
  cbn [Z.eqb] in Hrun.
  destruct (Proof_of p0) as [[[ | [ne | ] | | ] | ] | ];
    try discriminate; rewrite bind_lift_Returns in Hrun; try discriminate.
  rewrite bind_call_Calculate in Hrun.
  destruct (ics23.Calculate (ics23.Left ne)) as [subroot | err]; [ | discriminate].
  destruct (slice_index (Specs proof) 0) as [spec | ];
    [rewrite bind_lift_Returns in Hrun | discriminate].
  rewrite bind_call_VerifyNonMembership in Hrun.
  destruct (ics23.VerifyNonMembership spec subroot p0 _); [ | discriminate].
  cbn [negb] in Hrun.
  destruct (VerifyNonMembership_loop proof root path mpath (0 + 1) tail
              subroot subroot) as [r t2] eqn:Hrest.
  simpl in Hrun. injection Hrun as -> <-.
  apply VerifyNonMembership_loop_anchored in Hrest as (t' & sp & key & v & ->);
    [ | lia | assumption | rewrite Hproofs; len_lia].
  eexists (_ :: _ :: t'), sp, key, v.
  destruct tail; [congruence | reflexivity].
Qed.

(** A chain of a single proof: the result of [VerifyNonMembership] is the
    same under every root that is not empty.  Nothing ties the one
    sub-proof to the root. *)
Lemma VerifyNonMembership_single_proof_ignores_root (proof : MerkleProof)
    (p : option ics23.CommitmentProof) (root1 root2 : Root) (mpath : MerklePath) :
  Proofs proof = [p] ->
  Root_IsEmpty root1 = false -> Root_IsEmpty root2 = false ->
  MerkleProof_VerifyNonMembership proof (Some root1) (Some (Path_Merkle mpath))
  = MerkleProof_VerifyNonMembership proof (Some root2) (Some (Path_Merkle mpath)).
Proof.
  intros Hproofs H1 H2. unfold MerkleProof_VerifyNonMembership.
  destruct (ValidateBasic proof) as [vb | ]; [ | reflexivity].
  rewrite !bind_lift_Returns. cbn [nil_or]. rewrite H1, H2.
  destruct (is_error vb || false || Path_IsEmpty (Path_Merkle mpath));
    [reflexivity | ].
  cbn [as_MerklePath].
  destruct (len (Proofs proof) =? len (KeyPaths mpath)); [reflexivity | ].
  rewrite Hproofs. cbn [VerifyNonMembership_loop Z.eqb]. reflexivity.
Qed.

(** *** The loop against the algorithm of the specification

    Entered with as many proofs as specs and path levels, the membership
    loop accepts every chain that the algorithm of the specification
    accepts.  [ss] and [levels] are the specs and the reversed path
    levels that remain at index [i]. *)
Lemma VerifyMembership_loop_accepts (proof : MerkleProof) (root : Root) (path : Path)
    (mpath : MerklePath) :
  forall ps ss levels i value,
    0 <= i -> List.length ps = List.length ss ->
    i + len ps = len (Proofs proof) ->
    (forall j sp, nth_error ss j = Some sp ->
                  slice_index (Specs proof) (i + Z.of_nat j) = Returns sp) ->
    (forall j l, nth_error levels j = Some l ->
                 slice_index (KeyPaths mpath)
                   (len (KeyPaths mpath) - (i + Z.of_nat j) - 1) = Returns l) ->
    spec_membership_from (Root_GetHash root) levels (combine ps ss) value = true ->
    fst (VerifyMembership_loop proof root path mpath i ps value) = Returns None.
Proof.
  induction ps as [ | p rest IH]; intros ss levels i value Hi Hss Hlen Hspecs Hlevels Hok;
    [reflexivity | ].
  destruct ss as [ | sp srest]; [discriminate | ].
  cbn [combine] in Hok.
  destruct p as [[[[e | | | ] | ]] | ]; destruct levels as [ | level levels'];
    cbn [spec_membership_from] in Hok; try discriminate.
  destruct (ics23.Calculate e) as [subroot | ] eqn:Hcalc; [ | discriminate].
  apply andb_true_iff in Hok as [Hverify Hrest].
  rewrite VerifyMembership_loop_cons.
  specialize (Hlevels 0%nat level eq_refl) as Hlevel.
  specialize (Hspecs 0%nat sp eq_refl) as Hspec.
  rewrite Z.add_0_r in Hlevel, Hspec.
  rewrite Hlevel, bind_lift_Returns. cbn [Proof_of ics23.Proof].
  rewrite bind_lift_Returns, bind_call_Calculate, Hcalc, Hspec, bind_lift_Returns,
    bind_call_VerifyMembership.
  cbn [fst].
  replace (len (_ :: rest)) with (1 + len rest) in Hlen
    by len_lia.
  assert ((i =? len (Proofs proof) - 1) = match combine rest srest with
                                          | [] => true | _ => false end) as Hlast.
  { destruct rest; destruct srest; try discriminate; cbn [combine].
    - apply Z.eqb_eq. len_lia.
    - apply Z.eqb_neq. len_lia. }
  rewrite Hlast.
  replace (if match combine rest srest with [] => true | _ :: _ => false end
           then Root_GetHash root else subroot)
    with (match combine rest srest with [] => Root_GetHash root | _ => subroot end)
    by now destruct (combine rest srest).
  rewrite Hverify.
  apply IH with (ss := srest) (levels := levels'); trivial; try lia.
  - now injection Hss.
  - intros j s' Hj. replace (i + 1 + Z.of_nat j) with (i + Z.of_nat (S j)) by lia.
    now apply Hspecs.
  - intros j l Hj. replace (i + 1 + Z.of_nat j) with (i + Z.of_nat (S j)) by lia.
    now apply Hlevels.
Qed.

Lemma spec_membership_lengths (root : bytes) :
  forall levels ps value,
    spec_membership_from root levels ps value = true ->
    List.length levels = List.length ps.
Proof.
  induction levels as [ | l levels IH]; intros ps value H.
  - destruct ps as [ | [[[[[e | | | ] | ]] | ] sp] rest]; [reflexivity | | | | | | ];
      discriminate.
  - destruct ps as [ | [[[[[e | | | ] | ]] | ] sp] rest]; try discriminate.
    cbn [spec_membership_from] in H.
    destruct (ics23.Calculate e); [ | discriminate].
    apply andb_true_iff in H as [_ H]. cbn [List.length]. f_equal. eauto.
Qed.

Lemma forallb_present {A : Type} (l : list (option A)) :
  forallb present l = true -> Forall (fun x => x <> None) l.
Proof.
  rewrite forallb_forall, Forall_forall. intros H x Hx ->.
  now apply H in Hx.
Qed.

(** Every valid chain of N proofs over N path levels: the loop alone
    would accept it, and the procedure rejects it at the length guard,
    without a call to the proof library. *)
Lemma VerifyMembership_valid_chain_rejected (proof : MerkleProof) (hash : bytes)
    (mpath : MerklePath) (value : bytes) :
  spec_valid_membership_chain proof hash mpath value = true ->
  fst (VerifyMembership_loop proof (Root_Merkle (NewMerkleRoot hash))
         (Path_Merkle mpath) mpath 0 (Proofs proof) value) = Returns None
  /\ MerkleProof_VerifyMembership proof (Some (Root_Merkle (NewMerkleRoot hash)))
       (Some (Path_Merkle mpath)) value
     = (Returns (Some (err_chain_length (List.length (Proofs proof))
                                        (List.length (KeyPaths mpath)))), []).
Proof.
  unfold spec_valid_membership_chain. intros H.
  repeat (apply andb_true_iff in H as [H ?]).
  apply Nat.eqb_eq in H.
  repeat match goal with
         | Hn : negb _ = true |- _ => apply negb_true_iff in Hn
         end.
  match goal with Hn : (_ =? 0)%nat = false |- _ => apply Nat.eqb_neq in Hn end.
  match goal with Hs : spec_membership_from _ _ _ _ = true |- _ =>
    pose proof (spec_membership_lengths _ _ _ _ Hs) as Hlevels
  end.
  rewrite length_rev, length_combine, <- H, Nat.min_id in Hlevels.
  split.
  - apply VerifyMembership_loop_accepts
      with (ss := Specs proof) (levels := rev (KeyPaths mpath)); trivial; try lia.
    + intros j sp Hj. now apply slice_index_nth.
    + intros j l Hj. rewrite nth_error_rev in Hj.
      destruct (Nat.ltb_spec j (List.length (KeyPaths mpath))); [ | discriminate].
      replace (len (KeyPaths mpath) - (0 + Z.of_nat j) - 1)
        with (Z.of_nat (List.length (KeyPaths mpath) - S j)) by len_lia.
      now apply slice_index_nth.
  - unfold MerkleProof_VerifyMembership.
    rewrite ValidateBasic_well_formed; try (now apply forallb_present);
      try (len_lia).
    rewrite bind_lift_Returns.
    cbn [is_error nil_or Root_IsEmpty Path_IsEmpty orb].
    unfold MerkleRoot_IsEmpty, MerklePath_IsEmpty. cbn [MerkleRoot_GetHash Hash NewMerkleRoot].
    repeat match goal with
           | Hz : (len _ =? 0) = false |- _ => rewrite Hz
           end.
    destruct (Z.eqb_spec (len (KeyPaths mpath)) 0) as [Hz | ];
      [len_lia | ].
    cbn [orb as_MerklePath].
    destruct (Z.eqb_spec (len (Proofs proof)) (len (KeyPaths mpath)));
      [reflexivity | len_lia].
Qed.

End ChainVerifierProperties.

(** ** The procedures run on concrete chains *)

Section Scenarios.

Import Sample.

#[local] Existing Instance types.
#[local] Existing Instance library.

(** C2, on a value without bytes: the gate answers, the value is empty,
    and the call fails with "empty params or proof" before any call. *)
Lemma VerifyMembership_rejects_before_crypto_witness :
  ValidateBasic one_level = Returns None
  /\ (is_error None || nil_or Root_IsEmpty (root "h")
      || nil_or Path_IsEmpty (merkle_path ["a"]) || (len ([] : bytes) =? 0))
     || nil_or not_merkle (merkle_path ["a"]) = true
  /\ MerkleProof_VerifyMembership one_level (root "h") (merkle_path ["a"]) []
     = (Returns (Some err_empty_params), []).
Proof.
  split; [reflexivity | split; [reflexivity | ] ].
  apply (VerifyMembership_rejects_before_crypto
           one_level (root "h") (merkle_path ["a"]) [] None);
    reflexivity.
Defined.

(** C2 as stated fails: a path of another type than [MerklePath] gives an
    error whose kind is [InvalidProof], not [NotAMerklePath]. *)
Lemma VerifyMembership_foreign_path_is_InvalidProof :
  MerkleProof_VerifyMembership one_level (root "h") (Some (Path_other "/a" false)) (b "v1")
  = (Returns (Some err_not_merkle_path), [])
  /\ error_kind err_not_merkle_path = Some InvalidProof
  /\ error_kind err_not_merkle_path <> Some NotAMerklePath.
Proof. repeat split. discriminate. Qed.

(** C1 fails on the code.  The chain of one proof over one path level
    and the chain of two proofs over two path levels are valid by the
    algorithm of the specification, under the right root and value; the
    code rejects both at its length guard, which fires when the lengths
    are equal. *)
Theorem VerifyMembership_rejects_matching_chains :
  spec_valid_membership_chain one_level (b "h") (levels ["a"]) (b "v1")
  = true
  /\ MerkleProof_VerifyMembership one_level (root "h") (merkle_path ["a"]) (b "v1")
     = (Returns (Some (err_chain_length 1 1)), [])
  /\ spec_valid_membership_chain two_level (b "h") (levels ["a"; "b"])
       (b "v1") = true
  /\ MerkleProof_VerifyMembership two_level (root "h") (merkle_path ["a"; "b"]) (b "v1")
     = (Returns (Some (err_chain_length 2 2)), []).
Proof. repeat split. Qed.

(** C3 fails on the code for [VerifyNonMembership] over a single proof.
    The one sub-proof recomputes the root ["r0"]; the call succeeds under
    the root ["h"] and under the root ["zz"] alike, and its only
    verification is the non-membership check under ["r0"]. *)
Theorem VerifyNonMembership_single_proof_unanchored :
  exists (left : option Existence) (p : option ics23.CommitmentProof),
    Proofs absent_one_level = [p]
    /\ MerkleProof_VerifyNonMembership absent_one_level (root "h") (merkle_path ["a"; "b"])
       = (Returns None,
          [CalculateCall left; VerifyNonMembershipCall spec (b "r0") p (b "/b")])
    /\ MerkleProof_VerifyNonMembership absent_one_level (root "zz") (merkle_path ["a"; "b"])
       = (Returns None,
          [CalculateCall left; VerifyNonMembershipCall spec (b "r0") p (b "/b")]).
Proof. eexists _, _. repeat split. Qed.

(** C4 fails on the code.  With two proofs and one spec, none nil,
    [ValidateBasic] panics on [Specs[1]] instead of returning the
    invalid-proof error, and so do both procedures. *)
Theorem ValidateBasic_panics_on_longer_proofs :
  len (Proofs two_proofs_one_spec) <> len (Specs two_proofs_one_spec)
  /\ ValidateBasic two_proofs_one_spec = Panics (IndexOutOfRange 1 1)
  /\ MerkleProof_VerifyMembership two_proofs_one_spec (root "h") (merkle_path ["a"; "b"]) (b "v1")
     = (Panics (IndexOutOfRange 1 1), [])
  /\ MerkleProof_VerifyNonMembership two_proofs_one_spec (root "h") (merkle_path ["a"; "b"])
     = (Panics (IndexOutOfRange 1 1), []).
Proof. repeat split. discriminate. Qed.

(** C5 fails on the code.  The first sub-proof is an existence proof, and
    the call panics in the structural gate instead of failing with the
    invalid-proof error. *)
Theorem VerifyNonMembership_existence_first_panics :
  hd None (Proofs two_proofs_one_spec) = exist "/b" "v1" "r0"
  /\ MerkleProof_VerifyNonMembership two_proofs_one_spec (root "h") (merkle_path ["a"; "b"; "c"])
     = (Panics (IndexOutOfRange 1 1), []).
Proof. repeat split. Qed.

(** C8 fails on the code.  On two proofs and one spec, none nil, the scan
    of [IsEmpty] reads [Specs[1]], out of bounds, and [ValidateBasic],
    which calls [IsEmpty] before it compares the lengths, panics too. *)
Theorem IsEmpty_reads_past_Specs :
  MerkleProof_IsEmpty two_proofs_one_spec = Panics (IndexOutOfRange 1 1)
  /\ ValidateBasic two_proofs_one_spec = Panics (IndexOutOfRange 1 1).
Proof. repeat split. Qed.

(** C9 fails on the code.  Two proofs over a path of one level pass the
    gate and the length guard; the first iteration verifies, and the
    second reads [KeyPaths[1-1-1]], index -1. *)
Theorem loops_read_KeyPaths_at_minus_one :
  ValidateBasic two_proofs_over_a = Returns None
  /\ fst (MerkleProof_VerifyMembership two_proofs_over_a (root "h") (merkle_path ["a"]) (b "v1"))
     = Panics (IndexOutOfRange (-1) 1)
  /\ ValidateBasic absent_two_proofs_over_a = Returns None
  /\ fst (MerkleProof_VerifyNonMembership absent_two_proofs_over_a (root "h") (merkle_path ["a"]))
     = Panics (IndexOutOfRange (-1) 1).
Proof. repeat split. Qed.

(** For contrast: with one proof under a path of two levels the length
    guard lets the chain through, and it verifies. *)
Example VerifyMembership_shorter_chain_verifies :
  fst (MerkleProof_VerifyMembership (proof_of [exist "/b" "v1" "h"] [spec]) (root "h")
         (merkle_path ["a"; "b"]) (b "v1"))
  = Returns None.
Proof. reflexivity. Qed.

End Scenarios.

(** * Further properties *)

(** ** How paths are built and rendered *)

Section PathRendering.

Lemma append_assoc (a b c : string) : ((a ++ b) ++ c = a ++ (b ++ c))%string.
Proof. induction a as [ | x a IH]; simpl; [reflexivity | now rewrite IH]. Qed.

Lemma append_nil_r (a : string) : (a ++ "")%string = a.
Proof. induction a as [ | x a IH]; simpl; [reflexivity | now rewrite IH]. Qed.

Lemma AppendKey_fold (l : list string) :
  forall kp,
    fold_left (fun kp keyStr =>
                 merkle.AppendKey kp (list_byte_of_string keyStr) merkle.KeyEncodingURL)
              l kp
    = kp ++ map (fun s => {| merkle.name := list_byte_of_string s;
                                 merkle.enc := merkle.KeyEncodingURL |}) l.
Proof.
  induction l as [ | s l IH]; intros kp; simpl.
  - now rewrite app_nil_r.
  - rewrite IH. unfold merkle.AppendKey. now rewrite <- app_assoc.
Qed.

Lemma KeyPath_String_fold (pth : merkle.KeyPath) :
  forall res,
    fold_left (fun res k => (res ++ merkle.Key_String k)%string) pth res
    = (res ++ String.concat "" (map merkle.Key_String pth))%string.
Proof.
  induction pth as [ | k pth IH]; intros res; simpl.
  - now rewrite append_nil_r.
  - rewrite IH, append_assoc. f_equal.
    destruct pth as [ | k' pth']; cbn [map String.concat];
      [now rewrite append_nil_r | reflexivity].
Qed.

Lemma MerklePath_String_fold (f : merkle.KeyPath -> string) (rest : list merkle.KeyPath) :
  forall acc,
    fold_left (fun pathStr p => (pathStr ++ "/" ++ f p)%string) rest acc
    = String.concat "/" (acc :: map f rest).
Proof.
  induction rest as [ | p rest IH]; intros acc; [reflexivity | ].
  cbn [fold_left map]. rewrite IH.
  cbn [String.concat]. rewrite append_assoc.
  destruct (map f rest); reflexivity.
Qed.

(** X1.  [NewMerklePath] always builds a path of exactly one level, which
    holds one URL-encoded key per string, in order; so the path is never
    empty, even for no string at all. *)
Theorem NewMerklePath_one_level (keyPathStr : list string) :
  KeyPaths (NewMerklePath keyPathStr)
  = [ map (fun s => {| merkle.name := list_byte_of_string s;
                       merkle.enc := merkle.KeyEncodingURL |}) keyPathStr ]
  /\ MerklePath_IsEmpty (NewMerklePath keyPathStr) = false.
Proof.
  unfold NewMerklePath. cbn [KeyPaths]. rewrite AppendKey_fold. split; reflexivity.
Qed.

(** X2.  [String()] is the strings of the levels, in order, joined by ["/"];
    no ["/"] is put before the first level or after the last. *)
Theorem MerklePath_String_joins (mp : MerklePath) :
  MerklePath_String mp
  = String.concat "/" (map merkle.KeyPath_String (KeyPaths mp)).
Proof.
  unfold MerklePath_String. destruct (KeyPaths mp) as [ | k0 rest]; [reflexivity | ].
  now rewrite MerklePath_String_fold.
Qed.

Lemma url_keys_decode (l : list string) :
  PctDecodes
    (String.concat ""
       (map merkle.Key_String
          (map (fun s => {| merkle.name := list_byte_of_string s;
                                 merkle.enc := merkle.KeyEncodingURL |}) l)))
    (String.concat "" (map (fun s => "/" ++ s)%string l)).
Proof.
  induction l as [ | s l IH]; [constructor | ].
  cbn [map].
  set (k := {| merkle.name := list_byte_of_string s;
               merkle.enc := merkle.KeyEncodingURL |}).
  assert (PctDecodes (merkle.Key_String k) ("/" ++ s)%string) as Hs.
  { unfold merkle.Key_String, k. cbn [merkle.enc merkle.name].
    rewrite string_of_list_byte_of_string.
    apply (PctDecodes_app "/" "/").
    - apply PctDecodes_plain; [discriminate | constructor].
    - apply PathEscape_decodes. }
  destruct l as [ | s' l']; [exact Hs | ].
  cbn [map String.concat] in IH |- *.
  apply PctDecodes_app; [exact Hs | ].
  apply (PctDecodes_app "" ""); [constructor | exact IH].
Qed.

(** X4.  Round trip: the pretty form of the path built from strings is each
    string behind a ["/"], whatever bytes the strings hold. *)
Theorem Pretty_NewMerklePath (keyPathStr : list string) :
  MerklePath_Pretty (NewMerklePath keyPathStr)
  = Returns (String.concat "" (map (fun s => "/" ++ s)%string keyPathStr)).
Proof.
  unfold MerklePath_Pretty, MerklePath_String, NewMerklePath. cbn [KeyPaths fold_left].
  rewrite AppendKey_fold. cbn [app].
  unfold merkle.KeyPath_String. rewrite KeyPath_String_fold. cbn [String.append].
  pose proof (url_keys_decode keyPathStr) as H.
  apply PathUnescape_decodes in H. now rewrite H.
Qed.

End PathRendering.

(** ** What ApplyPrefix returns *)

Section ApplyPrefixResults.

Variable validator : string -> option error.

(** X5.  [ApplyPrefix] on a path that is not nil returns a nil error exactly
    when the validator accepts the path's string, the prefix is neither
    nil nor empty, and the path is a [MerklePath]; and with an error it
    returns the empty [MerklePath], never a partly built one. *)
Theorem ApplyPrefix_succeeds_iff (prefix : option Prefix) (path : Path) :
  ((exists result, ApplyPrefix validator prefix (Some path) = Returns (result, None))
   <-> validator (Path_String path) = None
       /\ nil_or Prefix_IsEmpty prefix = false
       /\ not_merkle path = false)
  /\ (forall result err,
         ApplyPrefix validator prefix (Some path) = Returns (result, Some err) ->
         result = Path_Merkle {| KeyPaths := [] |}).
Proof.
  unfold ApplyPrefix, not_merkle. split; [split | ].
  - intros [result H].
    destruct (validator (Path_String path)); [discriminate | ].
    destruct prefix as [pre | ]; [ | discriminate]. cbn [nil_or].
    destruct (Prefix_IsEmpty pre); [discriminate | ].
    destruct (as_MerklePath path); [now repeat split | discriminate].
  - intros (Hv & Hpre & Hm). rewrite Hv.
    destruct prefix as [pre | ]; [ | discriminate]. cbn [nil_or] in Hpre.
    rewrite Hpre. destruct (as_MerklePath path); [ | discriminate].
    now eexists.
  - intros result err H.
    destruct (validator (Path_String path)); [now injection H | ].
    destruct prefix as [pre | ]; [ | now injection H].
    destruct (Prefix_IsEmpty pre); [now injection H | ].
    destruct (as_MerklePath path); [discriminate | now injection H].
Qed.

(** X6.  With a prefix that has bytes and a Merkle path that the validator
    accepts, [ApplyPrefix] gives a path of one level more, which renders
    as the escaped prefix behind a ["/"], and then, when the given path
    has levels, a ["/"] and the given path's own string. *)
Theorem ApplyPrefix_renders_prefix_first (prefix : Prefix) (mpath : MerklePath) :
  validator (MerklePath_String mpath) = None ->
  Prefix_IsEmpty prefix = false ->
  exists result,
    ApplyPrefix validator (Some prefix) (Some (Path_Merkle mpath))
    = Returns (Path_Merkle result, None)
    /\ len (KeyPaths result) = 1 + len (KeyPaths mpath)
    /\ MerklePath_String result
       = ("/" ++ url.PathEscape (string_of_list_byte (Prefix_Bytes prefix))
            ++ (if MerklePath_IsEmpty mpath then ""
                else "/" ++ MerklePath_String mpath))%string.
Proof.
  intros Hv Hpre. eexists. split; [now apply ApplyPrefix_prepends | ].
  split; [cbn [KeyPaths app]; len_lia | ].
  unfold MerklePath_String, MerklePath_IsEmpty. cbn [KeyPaths app].
  match goal with
  | |- context [merkle.KeyPath_String [?k]] =>
      assert (merkle.KeyPath_String [k]
              = "/" ++ url.PathEscape (string_of_list_byte (Prefix_Bytes prefix)))%string
        as ->
  end.
  { unfold merkle.KeyPath_String, merkle.Key_String.
    cbn [fold_left merkle.enc merkle.name].
    now rewrite string_of_list_byte_of_string. }
  destruct (KeyPaths mpath) as [ | k0 rest].
  - cbn [fold_left]. change (len (@nil merkle.KeyPath) =? 0) with true. cbv iota.
    now rewrite append_nil_r.
  - replace (len (k0 :: rest) =? 0) with false by (symmetry; apply Z.eqb_neq; len_lia).
    cbn [fold_left]. rewrite !MerklePath_String_fold.
    cbn [String.concat]. destruct (map merkle.KeyPath_String rest) as [ | r rs];
      now rewrite !append_assoc.
Qed.

End ApplyPrefixResults.

(** ** What the structural gate lets through *)

Section GateResults.
Context {T : ics23.Types}.

(** A scan that found nothing has read a spec, not nil, at each index of
    the proofs. *)
Lemma IsEmpty_scan_false_specs (specs : list (option ics23.ProofSpec)) :
  forall ps i, 0 <= i -> IsEmpty_scan specs i ps = Returns false ->
    forall j, i <= j < i + len ps ->
              exists sp, nth_error specs (Z.to_nat j) = Some (Some sp).
Proof.
  induction ps as [ | p rest IH]; intros i Hi Hscan j Hj; [len_lia | ].
  cbn [IsEmpty_scan] in Hscan. destruct p as [c | ]; [ | discriminate].
  destruct (slice_index specs i) as [[sp | ] | e] eqn:Hidx; try discriminate.
  destruct (Z.eq_dec j i) as [-> | Hne].
  - exists sp. unfold slice_index in Hidx.
    destruct (i <? 0); [discriminate | ].
    destruct (nth_error specs (Z.to_nat i)); [now injection Hidx as -> | discriminate].
  - apply (IH (i + 1)); trivial; len_lia.
Qed.

(** X7.  [ValidateBasic] returns nil exactly on the proofs whose two lists
    have the same length, not zero, and hold no nil entry. *)
Theorem ValidateBasic_passes_iff (proof : MerkleProof) :
  ValidateBasic proof = Returns None
  <-> len (Proofs proof) = len (Specs proof) /\ 0 < len (Proofs proof)
      /\ Forall (fun p => p <> None) (Proofs proof)
      /\ Forall (fun sp => sp <> None) (Specs proof).
Proof.
  split.
  - intros H. destruct (ValidateBasic_passes proof H) as (Hlen & Hpos & Hproofs).
    repeat split; trivial.
    unfold ValidateBasic, MerkleProof_IsEmpty in H.
    destruct ((len (Proofs proof) =? 0) || (len (Specs proof) =? 0)); [discriminate | ].
    destruct (IsEmpty_scan (Specs proof) 0 (Proofs proof)) as [[ | ] | ] eqn:Hscan;
      try discriminate.
    apply Forall_forall. intros sp Hin ->.
    apply In_nth_error in Hin as [n Hn].
    assert (n < List.length (Specs proof))%nat as Hn'
        by (apply nth_error_Some; congruence).
    destruct (IsEmpty_scan_false_specs _ _ 0 ltac:(lia) Hscan (Z.of_nat n)) as [sp' Hsp'];
      [len_lia | ].
    rewrite Nat2Z.id in Hsp'. congruence.
  - intros (Hlen & Hpos & Hproofs & Hspecs). now apply ValidateBasic_well_formed.
Qed.

(** X8.  When the proofs do not outnumber the specs, [ValidateBasic] reads
    both lists within their bounds: it returns, nil or the invalid-proof
    error. *)
Theorem ValidateBasic_returns_when_fits (proof : MerkleProof) :
  len (Proofs proof) <= len (Specs proof) ->
  ValidateBasic proof = Returns None
  \/ ValidateBasic proof = Returns (Some ErrInvalidProof).
Proof.
  intros Hfit. unfold ValidateBasic, MerkleProof_IsEmpty.
  destruct ((len (Proofs proof) =? 0) || (len (Specs proof) =? 0)); [now right | ].
  destruct (IsEmpty_scan_fits (Specs proof) (Proofs proof) 0) as [b ->]; [lia | lia | ].
  destruct b; [now right | ].
  destruct (len (Proofs proof) =? len (Specs proof)); [now left | now right].
Qed.

End GateResults.

(** ** What the two procedures report, and what they cost *)

Section ProcedureResults.
Context {T : ics23.Types} {L : ics23.Library}.

(** One step of each loop, towards a property [P] of its result that
    holds of every panic. *)
Ltac loop_step :=
  match goal with
  | |- context [bind (lift (slice_index ?s ?i)) _] =>
      destruct (slice_index s i);
      [rewrite bind_lift_Returns | rewrite bind_lift_Panics]
  | |- context [bind (lift (Proof_of ?p)) _] =>
      destruct (Proof_of p) as [[[ | [ | ] | | ] | ] | ];
      [rewrite bind_lift_Returns .. | rewrite bind_lift_Panics]
  | |- context [bind (lift (Panics _)) _] => rewrite bind_lift_Panics
  | |- context [bind (call_Calculate ?p) _] =>
      rewrite bind_call_Calculate; destruct (ics23.Calculate p)
  | |- context [bind (call_VerifyMembership ?s ?r ?p ?k ?v) _] =>
      rewrite bind_call_VerifyMembership;
      destruct (ics23.VerifyMembership s r p k v)
  | |- context [bind (call_VerifyNonMembership ?s ?r ?p ?k) _] =>
      rewrite bind_call_VerifyNonMembership;
      destruct (ics23.VerifyNonMembership s r p k)
  end; cbn [negb fst snd].

Lemma VerifyMembership_loop_error_kind (proof : MerkleProof) (root : Root) (path : Path)
    (mpath : MerklePath) :
  forall ps i value,
    match fst (VerifyMembership_loop proof root path mpath i ps value) with
    | Returns (Some e) => exists description, e = Wrap ErrInvalidProof description
    | _ => True
    end.
Proof.
  induction ps as [ | p rest IH]; intros i value; [exact I | ].
  rewrite VerifyMembership_loop_cons.
  repeat (loop_step; try exact I; try (now eexists)). apply IH.
Qed.

Lemma VerifyNonMembership_loop_error_kind (proof : MerkleProof) (root : Root)
    (path : Path) (mpath : MerklePath) :
  forall ps i value subroot,
    match fst (VerifyNonMembership_loop proof root path mpath i ps value subroot) with
    | Returns (Some e) => exists description, e = Wrap ErrInvalidProof description
    | _ => True
    end.
Proof.
  induction ps as [ | p rest IH]; intros i value subroot; [exact I | ].
  cbn [VerifyNonMembership_loop].
  loop_step; [ | exact I].
  destruct (i =? 0); [ | destruct (i =? len (Proofs proof) - 1); cbn [negb] ];
    repeat (loop_step; try exact I; try (now eexists)); apply IH.
Qed.

(** X9.  Every error that [VerifyMembership] returns is the invalid-proof
    error under a description: it has no other kind of failure. *)
Theorem VerifyMembership_errors_are_InvalidProof (proof : MerkleProof)
    (root : option Root) (path : option Path) (value : bytes) (e : error)
    (t : list Event) :
  MerkleProof_VerifyMembership proof root path value = (Returns (Some e), t) ->
  (exists description, e = Wrap ErrInvalidProof description)
  /\ error_kind e = Some InvalidProof.
Proof.
  intros H.
  assert (exists description, e = Wrap ErrInvalidProof description) as [d ->];
    [ | split; [now exists d | reflexivity] ].
  unfold MerkleProof_VerifyMembership in H.
  destruct (ValidateBasic proof) as [vb | ]; [ | discriminate].
  rewrite bind_lift_Returns in H.
  destruct (is_error vb || _ || _ || _); [injection H as <- _; now eexists | ].
  destruct root as [r | ]; [ | discriminate].
  destruct path as [p | ]; [ | discriminate].
  destruct (as_MerklePath p) as [mpath | ]; [ | injection H as <- _; now eexists].
  destruct (len (Proofs proof) =? len (KeyPaths mpath));
    [injection H as <- _; now eexists | ].
  pose proof (VerifyMembership_loop_error_kind proof r p mpath (Proofs proof) 0 value)
    as Hloop.
  now rewrite H in Hloop.
Qed.

(** X10.  Every error that [VerifyNonMembership] returns is the
    invalid-proof error under a description. *)
Theorem VerifyNonMembership_errors_are_InvalidProof (proof : MerkleProof)
    (root : option Root) (path : option Path) (e : error) (t : list Event) :
  MerkleProof_VerifyNonMembership proof root path = (Returns (Some e), t) ->
  (exists description, e = Wrap ErrInvalidProof description)
  /\ error_kind e = Some InvalidProof.
Proof.
  intros H.
  assert (exists description, e = Wrap ErrInvalidProof description) as [d ->];
    [ | split; [now exists d | reflexivity] ].
  unfold MerkleProof_VerifyNonMembership in H.
  destruct (ValidateBasic proof) as [vb | ]; [ | discriminate].
  rewrite bind_lift_Returns in H.
  destruct (is_error vb || _ || _); [injection H as <- _; now eexists | ].
  destruct root as [r | ]; [ | discriminate].
  destruct path as [p | ]; [ | discriminate].
  destruct (as_MerklePath p) as [mpath | ]; [ | injection H as <- _; now eexists].
  destruct (len (Proofs proof) =? len (KeyPaths mpath));
    [injection H as <- _; now eexists | ].
  pose proof (VerifyNonMembership_loop_error_kind proof r p mpath (Proofs proof) 0 [] [])
    as Hloop.
  now rewrite H in Hloop.
Qed.

(** *** The number of calls into the proof library *)

Lemma VerifyMembership_loop_calls (proof : MerkleProof) (root : Root) (path : Path)
    (mpath : MerklePath) :
  forall ps i value,
    (List.length (snd (VerifyMembership_loop proof root path mpath i ps value))
     <= 2 * List.length ps)%nat.
Proof.
  induction ps as [ | p rest IH]; intros i value; [cbn; lia | ].
  rewrite VerifyMembership_loop_cons.
  repeat (loop_step; try (cbn; lia)).
  cbn [List.length].
  match goal with
  | |- context [VerifyMembership_loop _ _ _ _ ?j rest ?v] => specialize (IH j v); lia
  end.
Qed.

Lemma VerifyNonMembership_loop_calls (proof : MerkleProof) (root : Root) (path : Path)
    (mpath : MerklePath) :
  forall ps i value subroot,
    (List.length
       (snd (VerifyNonMembership_loop proof root path mpath i ps value subroot))
     <= 2 * List.length ps)%nat.
Proof.
  induction ps as [ | p rest IH]; intros i value subroot; [cbn; lia | ].
  cbn [VerifyNonMembership_loop].
  loop_step; [ | cbn; lia].
  destruct (i =? 0); [ | destruct (i =? len (Proofs proof) - 1); cbn [negb] ];
    repeat (loop_step; try (cbn; lia));
    cbn [List.length];
    match goal with
    | |- context [VerifyNonMembership_loop _ _ _ _ ?j rest ?v ?s] =>
        specialize (IH j v s); lia
    end.
Qed.

(** X11.  Both procedures call the proof library at most twice per sub-proof
    (one [Calculate], one verification), whatever the input. *)
Theorem procedures_call_library_twice_per_proof (proof : MerkleProof)
    (root : option Root) (path : option Path) (value : bytes) :
  (List.length (snd (MerkleProof_VerifyMembership proof root path value))
   <= 2 * List.length (Proofs proof))%nat
  /\ (List.length (snd (MerkleProof_VerifyNonMembership proof root path))
      <= 2 * List.length (Proofs proof))%nat.
Proof.
  unfold MerkleProof_VerifyMembership, MerkleProof_VerifyNonMembership.
  destruct (ValidateBasic proof) as [vb | ];
    [rewrite !bind_lift_Returns | split; cbn; lia].
  split.
  - destruct (is_error vb || _ || _ || _); [cbn; lia | ].
    destruct root as [r | ], path as [p | ]; try (cbn; lia).
    destruct (as_MerklePath p) as [mpath | ]; [ | cbn; lia].
    destruct (len (Proofs proof) =? len (KeyPaths mpath)); [cbn; lia | ].
    apply VerifyMembership_loop_calls.
  - destruct (is_error vb || _ || _); [cbn; lia | ].
    destruct root as [r | ], path as [p | ]; try (cbn; lia).
    destruct (as_MerklePath p) as [mpath | ]; [ | cbn; lia].
    destruct (len (Proofs proof) =? len (KeyPaths mpath)); [cbn; lia | ].
    apply VerifyNonMembership_loop_calls.
Qed.

(** *** Bounds *)


(** *** What a success has checked *)

Lemma VerifyMembership_loop_last_check (proof : MerkleProof) (root : Root)
    (path : Path) (mpath : MerklePath) :
  forall ps i value t,
    VerifyMembership_loop proof root path mpath i ps value = (Returns None, t) ->
    ps <> [] -> i + len ps = len (Proofs proof) ->
    exists t' spec key v,
      t = t' ++ [VerifyMembershipCall spec (Root_GetHash root) (last ps None) key v]
      /\ slice_index (Specs proof) (len (Proofs proof) - 1) = Returns spec
      /\ ics23.VerifyMembership spec (Root_GetHash root) (last ps None) key v = true.
Proof.
  induction ps as [ | p rest IH]; intros i value t Hrun Hne Hlen; [congruence | ].
  rewrite VerifyMembership_loop_cons in Hrun.
  destruct (slice_index (KeyPaths mpath) (len (KeyPaths mpath) - i - 1)) as [kp | ];
    [rewrite bind_lift_Returns in Hrun | discriminate].
  destruct (Proof_of p) as [[[e | | | ] | ] | ];
    try discriminate; rewrite bind_lift_Returns in Hrun; try discriminate.
  rewrite bind_call_Calculate in Hrun.
  destruct (ics23.Calculate e) as [subroot | err]; [ | discriminate].
  destruct (slice_index (Specs proof) i) as [spec | ] eqn:Hspec;
    [rewrite bind_lift_Returns in Hrun | discriminate].
  rewrite bind_call_VerifyMembership in Hrun.
  destruct (ics23.VerifyMembership spec _ p _ value) eqn:Hok; [ | discriminate].
  destruct rest as [ | p' rest'].
  - simpl in Hrun. injection Hrun as <-.
    assert (i = len (Proofs proof) - 1) as Hi by len_lia.
    rewrite <- Hi, Hspec. rewrite <- Hi, Z.eqb_refl in Hok. rewrite Z.eqb_refl.
    now exists [CalculateCall e], spec,
      (list_byte_of_string (merkle.KeyPath_String kp)), value.
  - destruct (VerifyMembership_loop proof root path mpath (i + 1) (p' :: rest') subroot)
      as [r t2] eqn:Hrest.
    simpl in Hrun. injection Hrun as -> <-.
    destruct (IH _ _ _ Hrest) as (t' & sp & key & v & -> & Hsp & Hv);
      [discriminate | len_lia | ].
    eexists (_ :: _ :: t'), sp, key, v. split; [reflexivity | now split].
Qed.

(** X13.  A successful [VerifyMembership] has verified, as its last call into
    the proof library, the last sub-proof with the last spec under the
    hash of the root given by the caller, and that call said yes. *)
Theorem VerifyMembership_success_checks_root (proof : MerkleProof) (root : Root)
    (path : Path) (value : bytes) (t : list Event) :
  MerkleProof_VerifyMembership proof (Some root) (Some path) value = (Returns None, t) ->
  exists t' spec key v,
    t = t' ++ [VerifyMembershipCall spec (Root_GetHash root)
                 (last (Proofs proof) None) key v]
    /\ slice_index (Specs proof) (len (Proofs proof) - 1) = Returns spec
    /\ ics23.VerifyMembership spec (Root_GetHash root) (last (Proofs proof) None) key v
       = true.
Proof.
  unfold MerkleProof_VerifyMembership. intros Hrun.
  destruct (ValidateBasic proof) as [vb | ] eqn:Hvb; [ | discriminate].
  rewrite bind_lift_Returns in Hrun.
  destruct vb as [err | ]; [discriminate | ].
  apply ValidateBasic_passes in Hvb as (_ & Hpos & _).
  destruct (is_error None || _ || _ || _); [discriminate | ].
  destruct (as_MerklePath path) as [mpath | ]; [ | discriminate].
  destruct (len (Proofs proof) =? len (KeyPaths mpath)); [discriminate | ].
  apply VerifyMembership_loop_last_check in Hrun; [assumption | | lia].
  intros Hnil. rewrite Hnil in Hpos. len_lia.
Qed.

(** X15.  A successful [VerifyNonMembership] began with a non-existence proof
    at index 0: it recomputed a root from the left neighbour of that
    proof, and the library verified the absence of the last level of the
    path under that recomputed root. *)
Theorem VerifyNonMembership_success_starts_with_absence (proof : MerkleProof)
    (root : Root) (path : Path) (t : list Event) :
  MerkleProof_VerifyNonMembership proof (Some root) (Some path) = (Returns None, t) ->
  exists mpath ne rest subroot spec kp t',
    path = Path_Merkle mpath
    /\ Proofs proof
       = Some {| ics23.Proof := Some (ics23.CommitmentProof_Nonexist (Some ne)) |}
           :: rest
    /\ ics23.Calculate (ics23.Left ne) = inl subroot
    /\ slice_index (KeyPaths mpath) (len (KeyPaths mpath) - 1) = Returns kp
    /\ slice_index (Specs proof) 0 = Returns spec
    /\ ics23.VerifyNonMembership spec subroot (hd None (Proofs proof))
         (list_byte_of_string (merkle.KeyPath_String kp)) = true
    /\ t = CalculateCall (ics23.Left ne)
           :: VerifyNonMembershipCall spec subroot (hd None (Proofs proof))
                (list_byte_of_string (merkle.KeyPath_String kp))
           :: t'.
Proof.
  unfold MerkleProof_VerifyNonMembership. intros Hrun.
  destruct (ValidateBasic proof) as [vb | ] eqn:Hvb; [ | discriminate].
  rewrite bind_lift_Returns in Hrun.
  destruct vb as [err | ]; [discriminate | ].
  apply ValidateBasic_passes in Hvb as (_ & Hpos & _).
  destruct (is_error None || _ || _); [discriminate | ].
  destruct path as [mpath | ]; [ | discriminate]. cbn [as_MerklePath] in Hrun.
  destruct (len (Proofs proof) =? len (KeyPaths mpath)); [discriminate | ].
  destruct (Proofs proof) as [ | p0 rest] eqn:Hproofs; [len_lia | ].
  cbn [VerifyNonMembership_loop] in Hrun.
  replace (len (KeyPaths mpath) - 0 - 1) with (len (KeyPaths mpath) - 1) in Hrun by lia.
  destruct (slice_index (KeyPaths mpath) (len (KeyPaths mpath) - 1)) as [kp | ] eqn:Hkp;
    [rewrite bind_lift_Returns in Hrun | discriminate].
  cbn [Z.eqb] in Hrun.
  destruct p0 as [[[[ | [ne | ] | | ] | ]] | ]; cbn [Proof_of ics23.Proof] in Hrun;
    try discriminate; rewrite bind_lift_Returns in Hrun; try discriminate.
  rewrite bind_call_Calculate in Hrun.
  destruct (ics23.Calculate (ics23.Left ne)) as [subroot | err] eqn:Hcalc;
    [ | discriminate].
  destruct (slice_index (Specs proof) 0) as [spec | ] eqn:Hspec;
    [rewrite bind_lift_Returns in Hrun | discriminate].
  rewrite bind_call_VerifyNonMembership in Hrun.
  destruct (ics23.VerifyNonMembership spec subroot _ _) eqn:Hok; [ | discriminate].
  cbn [negb fst snd] in Hrun. injection Hrun as _ <-.
  exists mpath, ne, rest, subroot, spec, kp. eexists.
  repeat split; trivial.
Qed.

Lemma VerifyNonMembership_loop_last_check (proof : MerkleProof) (root : Root)
    (path : Path) (mpath : MerklePath) :
  forall ps i value subroot t,
    0 < i ->
    VerifyNonMembership_loop proof root path mpath i ps value subroot
    = (Returns None, t) ->
    ps <> [] -> i + len ps = len (Proofs proof) ->
    exists t' spec key v,
      t = t' ++ [VerifyMembershipCall spec (Root_GetHash root) (last ps None) key v]
      /\ slice_index (Specs proof) (len (Proofs proof) - 1) = Returns spec
      /\ ics23.VerifyMembership spec (Root_GetHash root) (last ps None) key v = true.
Proof.
  induction ps as [ | p rest IH]; intros i value subroot t Hi Hrun Hne Hlen;
    [congruence | ].
  cbn [VerifyNonMembership_loop] in Hrun.
  destruct (slice_index (KeyPaths mpath) (len (KeyPaths mpath) - i - 1)) as [kp | ];
    [rewrite bind_lift_Returns in Hrun | discriminate].
  destruct (Z.eqb_spec i 0); [lia | ].
  destruct (Z.eqb_spec i (len (Proofs proof) - 1)) as [Hlast | Hmid];
    cbn [negb] in Hrun.
  - assert (rest = []) as -> by (destruct rest; [trivial | len_lia]).
    destruct (slice_index (Specs proof) i) as [spec | ] eqn:Hspec;
      [rewrite bind_lift_Returns in Hrun | discriminate].
    rewrite bind_call_VerifyMembership in Hrun.
    destruct (ics23.VerifyMembership spec _ p _ value) eqn:Hok; [ | discriminate].
    simpl in Hrun. injection Hrun as <-. rewrite <- Hlast, Hspec.
    now exists [], spec, (list_byte_of_string (merkle.KeyPath_String kp)), value.
  - destruct (Proof_of p) as [[[e | | | ] | ] | ];
      try discriminate; rewrite bind_lift_Returns in Hrun; try discriminate.
    rewrite bind_call_Calculate in Hrun.
    destruct (ics23.Calculate e) as [subroot' | err]; [ | discriminate].
    destruct (slice_index (Specs proof) i) as [spec | ];
      [rewrite bind_lift_Returns in Hrun | discriminate].
    rewrite bind_call_VerifyMembership in Hrun.
    destruct (ics23.VerifyMembership spec _ p _ value); [ | discriminate].
    cbn [negb] in Hrun.
    destruct (VerifyNonMembership_loop proof root path mpath (i + 1) rest
                subroot' subroot') as [r t2] eqn:Hrest.
    simpl in Hrun. injection Hrun as -> <-.
    assert (rest <> []) as Hrest_ne by (intros ->; len_lia).
    destruct (IH (i + 1) subroot' subroot' t2) as (t' & sp & key & v & -> & Hsp & Hv);
      trivial; try len_lia.
    eexists (_ :: _ :: t'), sp, key, v.
    destruct rest; [congruence | ]. split; [reflexivity | now split].
Qed.

(** X14.  A successful [VerifyNonMembership] over two sub-proofs or more has
    verified, as its last call into the proof library, the membership of
    the running value in the last sub-proof under the hash of the root
    given by the caller, and that call said yes. *)
Theorem VerifyNonMembership_success_checks_root (proof : MerkleProof) (root : Root)
    (path : Path) (t : list Event) :
  1 < len (Proofs proof) ->
  MerkleProof_VerifyNonMembership proof (Some root) (Some path) = (Returns None, t) ->
  exists t' spec key v,
    t = t' ++ [VerifyMembershipCall spec (Root_GetHash root)
                 (last (Proofs proof) None) key v]
    /\ slice_index (Specs proof) (len (Proofs proof) - 1) = Returns spec
    /\ ics23.VerifyMembership spec (Root_GetHash root) (last (Proofs proof) None) key v
       = true.
Proof.
  unfold MerkleProof_VerifyNonMembership. intros Hmany Hrun.
  destruct (ValidateBasic proof) as [vb | ]; [ | discriminate].
  rewrite bind_lift_Returns in Hrun.
  destruct (is_error vb || _ || _); [discriminate | ].
  destruct (as_MerklePath path) as [mpath | ]; [ | discriminate].
  destruct (len (Proofs proof) =? len (KeyPaths mpath)); [discriminate | ].
  remember (Proofs proof) as all eqn:Hall.
  destruct all as [ | p0 tail]; [len_lia | ].
  assert (tail <> []) as Htail by (intros ->; len_lia).
  cbn [VerifyNonMembership_loop] in Hrun.
  destruct (slice_index (KeyPaths mpath) (len (KeyPaths mpath) - 0 - 1)) as [kp | ];
    [rewrite bind_lift_Returns in Hrun | discriminate].
  cbn [Z.eqb] in Hrun.
  destruct (Proof_of p0) as [[[ | [ne | ] | | ] | ] | ];
    try discriminate; rewrite bind_lift_Returns in Hrun; try discriminate.
  rewrite bind_call_Calculate in Hrun.
  destruct (ics23.Calculate (ics23.Left ne)) as [subroot | err]; [ | discriminate].
  destruct (slice_index (Specs proof) 0) as [spec | ];
    [rewrite bind_lift_Returns in Hrun | discriminate].
  rewrite bind_call_VerifyNonMembership in Hrun.
  destruct (ics23.VerifyNonMembership spec subroot p0 _); [ | discriminate].
  cbn [negb] in Hrun.
  destruct (VerifyNonMembership_loop proof root path mpath (0 + 1) tail
              subroot subroot) as [r t2] eqn:Hrest.
  simpl in Hrun. injection Hrun as -> <-.
  apply VerifyNonMembership_loop_last_check in Hrest
    as (t' & sp & key & v & -> & Hsp & Hv);
    [ | lia | assumption | rewrite <- Hall; len_lia].
  eexists (_ :: _ :: t'), sp, key, v.
  rewrite <- Hall in Hsp.
  destruct tail; [congruence | ]. split; [reflexivity | now split].
Qed.

(** *** The membership loop against the algorithm of the specification *)

Lemma skipn_cons_inv {A : Type} (l : list A) :
  forall i x rest, skipn i l = x :: rest ->
                   nth_error l i = Some x /\ skipn (S i) l = rest.
Proof.
  induction l as [ | a l IH]; intros [ | i] x rest H; try discriminate.
  - injection H as -> ->. now split.
  - now apply IH.
Qed.

Lemma skipn_nth_error {A : Type} (l : list A) :
  forall i x, nth_error l i = Some x -> skipn i l = x :: skipn (S i) l.
Proof.
  induction l as [ | a l IH]; intros [ | i] x H; try discriminate.
  - now injection H as ->.
  - now apply IH.
Qed.

(** The reverse index of the loops reads the reversed list of levels. *)
Lemma reverse_index (levels : list merkle.KeyPath) (n : nat) :
  slice_index levels (len levels - Z.of_nat n - 1)
  = match nth_error (rev levels) n with
    | Some l => Returns l
    | None => Panics (IndexOutOfRange (len levels - Z.of_nat n - 1)
                                      (List.length levels))
    end.
Proof.
  rewrite nth_error_rev.
  destruct (Nat.ltb_spec n (List.length levels)) as [Hin | Hout].
  - destruct (slice_index_in_range levels (len levels - Z.of_nat n - 1))
      as [l [-> Hl]]; [len_lia | ].
    replace (Z.to_nat (len levels - Z.of_nat n - 1))
      with (List.length levels - S n)%nat in Hl by len_lia.
    now rewrite Hl.
  - apply slice_index_out_of_range. len_lia.
Qed.

Lemma VerifyMembership_loop_iff (proof : MerkleProof) (root : Root) (path : Path)
    (mpath : MerklePath) :
  List.length (Proofs proof) = List.length (Specs proof) ->
  forall ps i value,
    skipn i (Proofs proof) = ps ->
    fst (VerifyMembership_loop proof root path mpath (Z.of_nat i) ps value)
    = Returns None
    <-> spec_membership_from (Root_GetHash root)
          (firstn (List.length ps) (skipn i (rev (KeyPaths mpath))))
          (combine ps (skipn i (Specs proof))) value = true.
Proof.
  intros Hspecs. induction ps as [ | p rest IH]; intros i value Hps.
  - split; reflexivity.
  - apply skipn_cons_inv in Hps as [Hp Hrest].
    assert (i < List.length (Proofs proof))%nat as Hi
        by (apply nth_error_Some; congruence).
    destruct (nth_error (Specs proof) i) as [sp | ] eqn:Hsp;
      [ | apply nth_error_None in Hsp; lia].
    rewrite (skipn_nth_error _ _ _ Hsp).
    rewrite VerifyMembership_loop_cons, reverse_index.
    cbn [combine List.length].
    destruct (nth_error (rev (KeyPaths mpath)) i) as [level | ] eqn:Hlevel.
    + rewrite (skipn_nth_error _ _ _ Hlevel). cbn [firstn].
      rewrite bind_lift_Returns.
      destruct p as [[[[e | | | ] | ]] | ]; cbn [Proof_of ics23.Proof spec_membership_from];
        try (split; discriminate);
        rewrite bind_lift_Returns; try (split; discriminate).
      rewrite bind_call_Calculate.
      destruct (ics23.Calculate e) as [subroot | err]; [ | split; discriminate].
      rewrite (slice_index_nth _ _ _ Hsp), bind_lift_Returns, bind_call_VerifyMembership.
      cbn [fst].
      assert (List.length rest = List.length (skipn (S i) (Specs proof))) as Hsame.
      { rewrite <- Hrest, !length_skipn. lia. }
      assert ((Z.of_nat i =? len (Proofs proof) - 1)
              = match combine rest (skipn (S i) (Specs proof)) with
                | [] => true | _ => false end) as Hlast.
      { assert (List.length rest = List.length (Proofs proof) - S i)%nat as Hlen
            by (rewrite <- Hrest; apply length_skipn).
        destruct rest; destruct (skipn (S i) (Specs proof)); try discriminate;
          cbn [combine]; [apply Z.eqb_eq | apply Z.eqb_neq]; len_lia. }
      rewrite Hlast.
      replace (if match combine rest (skipn (S i) (Specs proof)) with
                  | [] => true | _ :: _ => false end
               then Root_GetHash root else subroot)
        with (match combine rest (skipn (S i) (Specs proof)) with
              | [] => Root_GetHash root | _ => subroot end)
        by now destruct (combine rest (skipn (S i) (Specs proof))).
      destruct (ics23.VerifyMembership sp _ _ _ value); [ | split; discriminate].
      cbn [andb]. replace (Z.of_nat i + 1) with (Z.of_nat (S i)) by lia.
      now apply IH.
    + apply nth_error_None in Hlevel.
      rewrite skipn_all2 by (rewrite length_rev in Hlevel; now rewrite length_rev).
      rewrite firstn_nil.
      rewrite bind_lift_Panics.
      destruct p as [[[[e | | | ] | ]] | ]; cbn [spec_membership_from fst];
        split; discriminate.
Qed.

(** X16.  The loop of [VerifyMembership], entered on a proof that passed the
    gate, ends without error exactly when the chain verifies level by
    level: each sub-proof is an existence proof whose root is recomputed;
    the running value is verified by sub-proof [i], with spec [i], at the
    path level [len(KeyPaths)-1-i], under that recomputed root, or under
    the caller's root at the last index; and the recomputed root is the
    next value. *)
Theorem VerifyMembership_loop_verifies_the_chain (proof : MerkleProof) (root : Root)
    (path : Path) (mpath : MerklePath) (value : bytes) :
  ValidateBasic proof = Returns None ->
  fst (VerifyMembership_loop proof root path mpath 0 (Proofs proof) value)
  = Returns None
  <-> spec_membership_from (Root_GetHash root)
        (firstn (List.length (Proofs proof)) (rev (KeyPaths mpath)))
        (combine (Proofs proof) (Specs proof)) value = true.
Proof.
  intros Hvb. apply ValidateBasic_passes in Hvb as (Hlen & _ & _).
  apply (VerifyMembership_loop_iff proof root path mpath ltac:(len_lia)
           (Proofs proof) 0%nat value eq_refl).
Qed.

End ProcedureResults.

(** ** The further properties on concrete inputs *)

Section FurtherScenarios.

Import Sample.

#[local] Existing Instance types.
#[local] Existing Instance library.

(** The prefix ["ibc"] before the path of the one key ["x"]. *)
Lemma ApplyPrefix_renders_prefix_first_witness :
  rejectBlank (MerklePath_String (NewMerklePath ["x"])) = None
  /\ Prefix_IsEmpty (Prefix_Merkle (NewMerklePrefix (b "ibc"))) = false
  /\ exists result,
       ApplyPrefix rejectBlank (prefix "ibc") (Some (Path_Merkle (NewMerklePath ["x"])))
       = Returns (Path_Merkle result, None)
       /\ len (KeyPaths result) = 1 + len (KeyPaths (NewMerklePath ["x"]))
       /\ MerklePath_String result = "/ibc//x".
Proof.
  split; [reflexivity | split; [reflexivity | ] ].
  apply (ApplyPrefix_renders_prefix_first rejectBlank
           (Prefix_Merkle (NewMerklePrefix (b "ibc"))) (NewMerklePath ["x"]));
    reflexivity.
Defined.

Lemma ValidateBasic_returns_when_fits_witness :
  len (Proofs one_level) <= len (Specs one_level)
  /\ (ValidateBasic one_level = Returns None
      \/ ValidateBasic one_level = Returns (Some ErrInvalidProof)).
Proof.
  split; [vm_compute; discriminate | ].
  apply (ValidateBasic_returns_when_fits one_level). vm_compute. discriminate.
Defined.

(** The chain of one proof over one level stops at the length guard:
    the error is the invalid-proof error. *)
Lemma VerifyMembership_errors_are_InvalidProof_witness :
  MerkleProof_VerifyMembership one_level (root "h") (merkle_path ["a"]) (b "v1")
  = (Returns (Some (err_chain_length 1 1)), [])
  /\ (exists description, err_chain_length 1 1 = Wrap ErrInvalidProof description)
  /\ error_kind (err_chain_length 1 1) = Some InvalidProof.
Proof.
  split; [reflexivity | ].
  apply (VerifyMembership_errors_are_InvalidProof one_level (root "h")
           (merkle_path ["a"]) (b "v1") (err_chain_length 1 1) []).
  reflexivity.
Defined.

(** A path that is not a Merkle path: the error is the invalid-proof
    error. *)
Lemma VerifyNonMembership_errors_are_InvalidProof_witness :
  MerkleProof_VerifyNonMembership absent_one_level (root "h")
    (Some (Path_other "/a/b" false))
  = (Returns (Some err_not_merkle_path), [])
  /\ (exists description, err_not_merkle_path = Wrap ErrInvalidProof description)
  /\ error_kind err_not_merkle_path = Some InvalidProof.
Proof.
  split; [reflexivity | ].
  apply (VerifyNonMembership_errors_are_InvalidProof absent_one_level (root "h")
           (Some (Path_other "/a/b" false)) err_not_merkle_path []).
  reflexivity.
Defined.

Lemma VerifyNonMembership_rejects_before_crypto_witness :
  ValidateBasic absent_one_level = Returns None
  /\ (is_error None || nil_or Root_IsEmpty (root "") || nil_or Path_IsEmpty
        (merkle_path ["a"; "b"])) || nil_or not_merkle (merkle_path ["a"; "b"]) = true
  /\ MerkleProof_VerifyNonMembership absent_one_level (root "") (merkle_path ["a"; "b"])
     = (Returns (Some err_empty_params), []).
Proof.
  split; [reflexivity | split; [reflexivity | ] ].
  apply (VerifyNonMembership_rejects_before_crypto absent_one_level (root "")
           (merkle_path ["a"; "b"]) None); reflexivity.
Defined.


(** One proof under a path of two levels verifies, and its last call is
    the check under the root ["h"]. *)
Lemma VerifyMembership_success_checks_root_witness :
  fst (MerkleProof_VerifyMembership one_proof_two_levels (root "h")
         (merkle_path ["a"; "b"]) (b "v1")) = Returns None
  /\ exists t' spec key v,
       snd (MerkleProof_VerifyMembership one_proof_two_levels (root "h")
              (merkle_path ["a"; "b"]) (b "v1"))
       = t' ++ [VerifyMembershipCall spec (b "h")
                  (last (Proofs one_proof_two_levels) None) key v]
       /\ slice_index (Specs one_proof_two_levels)
            (len (Proofs one_proof_two_levels) - 1) = Returns spec
       /\ ics23.VerifyMembership spec (b "h")
            (last (Proofs one_proof_two_levels) None) key v = true.
Proof.
  split; [reflexivity | ].
  apply (VerifyMembership_success_checks_root one_proof_two_levels
           (Root_Merkle (NewMerkleRoot (b "h"))) (Path_Merkle (levels ["a"; "b"]))
           (b "v1")).
  reflexivity.
Defined.

(** Absence under three levels: the non-existence proof first, then the
    membership of its root under the root ["h"]. *)
Lemma VerifyNonMembership_success_checks_root_witness :
  1 < len (Proofs absent_two_level)
  /\ fst (MerkleProof_VerifyNonMembership absent_two_level (root "h")
            (merkle_path ["a"; "b"; "c"])) = Returns None
  /\ exists t' spec key v,
       snd (MerkleProof_VerifyNonMembership absent_two_level (root "h")
              (merkle_path ["a"; "b"; "c"]))
       = t' ++ [VerifyMembershipCall spec (b "h")
                  (last (Proofs absent_two_level) None) key v]
       /\ slice_index (Specs absent_two_level) (len (Proofs absent_two_level) - 1)
          = Returns spec
       /\ ics23.VerifyMembership spec (b "h") (last (Proofs absent_two_level) None)
            key v = true.
Proof.
  split; [reflexivity | split; [reflexivity | ] ].
  apply (VerifyNonMembership_success_checks_root absent_two_level
           (Root_Merkle (NewMerkleRoot (b "h"))) (Path_Merkle (levels ["a"; "b"; "c"])));
    reflexivity.
Defined.

Lemma VerifyNonMembership_success_starts_with_absence_witness :
  fst (MerkleProof_VerifyNonMembership absent_two_level (root "h")
         (merkle_path ["a"; "b"; "c"])) = Returns None
  /\ exists ne subroot,
       hd None (Proofs absent_two_level)
       = Some {| ics23.Proof := Some (ics23.CommitmentProof_Nonexist (Some ne)) |}
       /\ ics23.Calculate (ics23.Left ne) = inl subroot
       /\ hd_error (snd (MerkleProof_VerifyNonMembership absent_two_level (root "h")
                           (merkle_path ["a"; "b"; "c"])))
          = Some (CalculateCall (ics23.Left ne)).
Proof.
  split; [reflexivity | ].
  assert (MerkleProof_VerifyNonMembership absent_two_level (root "h")
            (merkle_path ["a"; "b"; "c"])
          = (Returns None,
             snd (MerkleProof_VerifyNonMembership absent_two_level (root "h")
                    (merkle_path ["a"; "b"; "c"])))) as Hrun by reflexivity.
  destruct (VerifyNonMembership_success_starts_with_absence absent_two_level
              (Root_Merkle (NewMerkleRoot (b "h"))) (Path_Merkle (levels ["a"; "b"; "c"]))
              _ Hrun)
    as (mpath & ne & rest & subroot & spec & kp & t' & _ & Hp & Hc & _ & _ & _ & Ht).
  exists ne, subroot. rewrite Hp, Ht. repeat split; trivial.
Defined.

Lemma VerifyMembership_loop_verifies_the_chain_witness :
  ValidateBasic one_proof_two_levels = Returns None
  /\ (fst (VerifyMembership_loop one_proof_two_levels
             (Root_Merkle (NewMerkleRoot (b "h"))) (Path_Merkle (levels ["a"; "b"]))
             (levels ["a"; "b"]) 0 (Proofs one_proof_two_levels) (b "v1"))
      = Returns None
      <-> spec_membership_from (b "h")
            (firstn (List.length (Proofs one_proof_two_levels))
                    (rev (KeyPaths (levels ["a"; "b"]))))
            (combine (Proofs one_proof_two_levels) (Specs one_proof_two_levels))
            (b "v1") = true).
Proof.
  split; [reflexivity | ].
  apply (VerifyMembership_loop_verifies_the_chain one_proof_two_levels
           (Root_Merkle (NewMerkleRoot (b "h"))) (Path_Merkle (levels ["a"; "b"]))
           (levels ["a"; "b"]) (b "v1")).
  reflexivity.
Defined.

End FurtherScenarios.

(** ** Pretty on keys of any encoding *)

Section PrettyOnAnyKeys.

(** The digits that [url.ishex] accepts and the values that [url.unhex]
    gives are those of [hex_value]. *)
Lemma hex_value_spec (c : ascii) :
  match hex_value c with
  | Some v => url.ishex c = true /\ url.unhex c = v
  | None => url.ishex c = false
  end.
Proof.
  revert c. apply ascii_cases.
  intros [] [] [] [] [] [] [] []; vm_compute; repeat split.
Qed.

Lemma PctDecodes_PercentDecoded (s out : string) :
  PctDecodes s out <-> PercentDecoded s out.
Proof.
  split.
  - induction 1 as [ | c s out Hc _ IH | h1 h2 s out H1 H2 _ IH].
    + constructor.
    + now constructor.
    + pose proof (hex_value_spec h1) as S1. pose proof (hex_value_spec h2) as S2.
      destruct (hex_value h1) as [v1 | ] eqn:E1; [ | congruence].
      destruct (hex_value h2) as [v2 | ] eqn:E2; [ | congruence].
      destruct S1 as [_ <-], S2 as [_ <-].
      now apply PercentDecoded_escape.
  - induction 1 as [ | c s out Hc _ IH | h1 h2 v1 v2 s out H1 H2 _ IH].
    + constructor.
    + now constructor.
    + pose proof (hex_value_spec h1) as S1. pose proof (hex_value_spec h2) as S2.
      rewrite H1 in S1. rewrite H2 in S2.
      destruct S1 as [I1 <-], S2 as [I2 <-].
      now apply PctDecodes_triple.
Qed.

Lemma unescape_or_panic_decodes (s out : string) :
  unescape_or_panic s = Returns out <-> PercentDecoded s out.
Proof.
  rewrite <- PctDecodes_PercentDecoded, <- PathUnescape_decodes.
  unfold unescape_or_panic.
  destruct (url.PathUnescape s); split; congruence.
Qed.

Lemma unescape_or_panic_fails (s : string) :
  (exists fragment, unescape_or_panic s = Panics (PanicEscapeError fragment))
  <-> ~ ValidPercentEncoding s.
Proof.
  unfold ValidPercentEncoding. split.
  - intros [fragment Hf] [out Hout].
    apply unescape_or_panic_decodes in Hout. congruence.
  - intros Hnot. unfold unescape_or_panic in *.
    destruct (url.PathUnescape s) as [out | bad] eqn:E.
    + exfalso. apply Hnot. exists out.
      apply PctDecodes_PercentDecoded, PathUnescape_decodes, E.
    + now exists bad.
Qed.

Lemma known_encoding_iff (e : Z) :
  (exists enc, known_encoding e = Some enc) <-> e = 0 \/ e = 1.
Proof.
  unfold known_encoding.
  destruct (Z.eqb_spec e 0); [split; eauto | ].
  destruct (Z.eqb_spec e 1); [split; eauto | ].
  split; [intros [enc H]; discriminate | lia].
Qed.

Lemma AnyKey_String_returns (k : AnyKey) :
  ((key_enc k = 0 \/ key_enc k = 1)
   /\ exists s, AnyKey_String k = Returns s /\ ValidPct s)
  \/ (AnyKey_String k = Panics (PanicMessage "unexpected key encoding type")
      /\ ~ (key_enc k = 0 \/ key_enc k = 1)).
Proof.
  unfold AnyKey_String.
  destruct (known_encoding (key_enc k)) as [enc | ] eqn:E.
  - left. split; [apply known_encoding_iff; now exists enc | ].
    eexists. split; [reflexivity | apply Key_String_valid].
  - right. split; [reflexivity | ].
    intros H. apply known_encoding_iff in H as [enc H]. congruence.
Qed.

Lemma AnyKeyPath_String_panicked (pth : list AnyKey) (p : panic) :
  fold_left (fun res k =>
               match res with
               | Panics p => Panics p
               | Returns r =>
                   match AnyKey_String k with
                   | Panics p => Panics p
                   | Returns s => Returns (r ++ s)%string
                   end
               end) pth (Panics p)
  = Panics p.
Proof. induction pth as [ | k pth IH]; [reflexivity | exact IH]. Qed.

(** A level renders to a valid string when each of its keys has a known
    encoding, and panics otherwise. *)
Lemma AnyKeyPath_String_from (pth : list AnyKey) :
  forall r, ValidPct r ->
    (Forall (fun k => key_enc k = 0 \/ key_enc k = 1) pth
     /\ exists s,
          fold_left (fun res k =>
                       match res with
                       | Panics p => Panics p
                       | Returns r =>
                           match AnyKey_String k with
                           | Panics p => Panics p
                           | Returns s => Returns (r ++ s)%string
                           end
                       end) pth (Returns r) = Returns s
          /\ ValidPct s)
    \/ (~ Forall (fun k => key_enc k = 0 \/ key_enc k = 1) pth
        /\ fold_left (fun res k =>
                        match res with
                        | Panics p => Panics p
                        | Returns r =>
                            match AnyKey_String k with
                            | Panics p => Panics p
                            | Returns s => Returns (r ++ s)%string
                            end
                        end) pth (Returns r)
           = Panics (PanicMessage "unexpected key encoding type")).
Proof.
  induction pth as [ | k pth IH]; intros r Hr.
  - left. split; [constructor | now exists r].
  - cbn [fold_left].
    destruct (AnyKey_String_returns k) as [(Hk & s & -> & Hs) | [-> Hbad]].
    + destruct (IH (r ++ s)%string (ValidPct_app _ _ Hr Hs)) as [[Hall H] | [Hnot H]].
      * left. split; [now constructor | exact H].
      * right. split; [ | exact H]. intros Hall. inversion Hall; subst. now apply Hnot.
    + right. split; [ | apply AnyKeyPath_String_panicked].
      intros Hall. inversion Hall; subst. now apply Hbad.
Qed.

Lemma AnyKeyPath_String_cases (pth : list AnyKey) :
  (Forall (fun k => key_enc k = 0 \/ key_enc k = 1) pth
   /\ exists s, AnyKeyPath_String pth = Returns s /\ ValidPct s)
  \/ (~ Forall (fun k => key_enc k = 0 \/ key_enc k = 1) pth
      /\ AnyKeyPath_String pth = Panics (PanicMessage "unexpected key encoding type")).
Proof. apply AnyKeyPath_String_from. exists "". constructor. Qed.

Lemma AnyMerklePath_String_panicked (rest : list (list AnyKey)) (e : panic) :
  fold_left (fun pathStr p =>
               match pathStr with
               | Panics e => Panics e
               | Returns acc =>
                   match AnyKeyPath_String p with
                   | Panics e => Panics e
                   | Returns str => Returns (acc ++ "/" ++ str)%string
                   end
               end) rest (Panics e)
  = Panics e.
Proof. induction rest as [ | p rest IH]; [reflexivity | exact IH]. Qed.

Lemma AnyMerklePath_String_from (rest : list (list AnyKey)) :
  forall acc, ValidPct acc ->
    (Forall (Forall (fun k => key_enc k = 0 \/ key_enc k = 1)) rest
     /\ exists s,
          fold_left (fun pathStr p =>
                       match pathStr with
                       | Panics e => Panics e
                       | Returns acc =>
                           match AnyKeyPath_String p with
                           | Panics e => Panics e
                           | Returns str => Returns (acc ++ "/" ++ str)%string
                           end
                       end) rest (Returns acc) = Returns s
          /\ ValidPct s)
    \/ (~ Forall (Forall (fun k => key_enc k = 0 \/ key_enc k = 1)) rest
        /\ fold_left (fun pathStr p =>
                        match pathStr with
                        | Panics e => Panics e
                        | Returns acc =>
                            match AnyKeyPath_String p with
                            | Panics e => Panics e
                            | Returns str => Returns (acc ++ "/" ++ str)%string
                            end
                        end) rest (Returns acc)
           = Panics (PanicMessage "unexpected key encoding type")).
Proof.
  induction rest as [ | p rest IH]; intros acc Hacc.
  - left. split; [constructor | now exists acc].
  - cbn [fold_left].
    destruct (AnyKeyPath_String_cases p) as [(Hp & s & -> & Hs) | [Hbad ->]].
    + assert (ValidPct (acc ++ "/" ++ s)%string) as Hnext.
      { apply ValidPct_app; [assumption | ]. apply (ValidPct_app "/"); [ | assumption].
        exists "/". apply PctDecodes_plain; [discriminate | constructor]. }
      destruct (IH _ Hnext) as [[Hall H] | [Hnot H]].
      * left. split; [now constructor | exact H].
      * right. split; [ | exact H]. intros Hall. inversion Hall; subst. now apply Hnot.
    + right. split; [ | apply AnyMerklePath_String_panicked].
      intros Hall. inversion Hall; subst. now apply Hbad.
Qed.

(** [String()] on keys of any encoding: a valid percent-encoded string
    when every key has a known encoding, and the panic of
    [KeyPath.String()] otherwise. *)
Lemma AnyMerklePath_String_cases (mp : AnyMerklePath) :
  (Forall (Forall (fun k => key_enc k = 0 \/ key_enc k = 1)) (AnyKeyPaths mp)
   /\ exists s, AnyMerklePath_String mp = Returns s /\ ValidPct s)
  \/ (~ Forall (Forall (fun k => key_enc k = 0 \/ key_enc k = 1)) (AnyKeyPaths mp)
      /\ AnyMerklePath_String mp = Panics (PanicMessage "unexpected key encoding type")).
Proof.
  unfold AnyMerklePath_String. destruct (AnyKeyPaths mp) as [ | k0 rest].
  - left. split; [constructor | ]. exists "". split; [reflexivity | ].
    exists "". constructor.
  - destruct (AnyKeyPath_String_cases k0) as [(H0 & s0 & -> & Hs0) | [Hbad ->]].
    + destruct (AnyMerklePath_String_from rest s0 Hs0) as [[Hall H] | [Hnot H]].
      * left. split; [now constructor | exact H].
      * right. split; [ | exact H]. intros Hall. inversion Hall; subst. now apply Hnot.
    + right. split; [ | apply AnyMerklePath_String_panicked].
      intros Hall. inversion Hall; subst. now apply Hbad.
Qed.

(** On keys of known encoding the two renderings agree. *)
Lemma AnyKeyPath_String_of (pth : merkle.KeyPath) :
  forall r,
    fold_left (fun res k =>
                 match res with
                 | Panics p => Panics p
                 | Returns r =>
                     match AnyKey_String k with
                     | Panics p => Panics p
                     | Returns s => Returns (r ++ s)%string
                     end
                 end) (map AnyKey_of pth) (Returns r)
    = Returns (fold_left (fun res k => (res ++ merkle.Key_String k)%string) pth r).
Proof.
  induction pth as [ | k pth IH]; intros r; [reflexivity | ].
  cbn [map fold_left].
  replace (AnyKey_String (AnyKey_of k)) with (Returns (merkle.Key_String k))
    by (destruct k as [n []]; reflexivity).
  apply IH.
Qed.

Lemma AnyMerklePath_String_of (mp : MerklePath) :
  AnyMerklePath_String (AnyMerklePath_of mp) = Returns (MerklePath_String mp).
Proof.
  unfold AnyMerklePath_String, MerklePath_String, AnyMerklePath_of. cbn [AnyKeyPaths].
  destruct (KeyPaths mp) as [ | k0 rest]; [reflexivity | ].
  cbn [map]. unfold AnyKeyPath_String at 2. rewrite AnyKeyPath_String_of.
  fold (merkle.KeyPath_String k0).
  generalize (merkle.KeyPath_String k0) as acc.
  induction rest as [ | p rest IH]; intros acc; [reflexivity | ].
  cbn [map fold_left]. unfold AnyKeyPath_String at 2. rewrite AnyKeyPath_String_of.
  fold (merkle.KeyPath_String p). apply IH.
Qed.

Lemma AnyMerklePath_Pretty_of (mp : MerklePath) :
  AnyMerklePath_Pretty (AnyMerklePath_of mp) = MerklePath_Pretty mp.
Proof. unfold AnyMerklePath_Pretty. now rewrite AnyMerklePath_String_of. Qed.

(** C7, as the code has it.  When [String()] returns, [Pretty()] returns
    the percent-decoding of the rendered string, which is always valid
    percent-encoding; when [String()] panics, on a key whose encoding is
    not a known one, [Pretty()] fails with that panic.  The step after
    [String()] returns exactly the percent-decoding of its argument and
    panics with the escape error exactly on the strings that are not
    valid percent-encoding; [String()] renders none of those. *)
Theorem Pretty_decodes_what_String_renders (mp : AnyMerklePath) :
  (forall rendered, AnyMerklePath_String mp = Returns rendered ->
      exists out, AnyMerklePath_Pretty mp = Returns out /\ PercentDecoded rendered out)
  /\ (forall p, AnyMerklePath_String mp = Panics p ->
        AnyMerklePath_Pretty mp = Panics p
        /\ p = PanicMessage "unexpected key encoding type")
  /\ (forall s out, unescape_or_panic s = Returns out <-> PercentDecoded s out)
  /\ (forall s, (exists fragment,
                    unescape_or_panic s = Panics (PanicEscapeError fragment))
                <-> ~ ValidPercentEncoding s).
Proof.
  split; [ | split; [ | split] ].
  - intros rendered Hs. unfold AnyMerklePath_Pretty. rewrite Hs.
    destruct (AnyMerklePath_String_cases mp) as [(_ & s & Hs' & [out Hout]) | [_ Hp]];
      [ | congruence].
    assert (s = rendered) as -> by congruence.
    exists out. apply PctDecodes_PercentDecoded in Hout.
    split; [now apply unescape_or_panic_decodes | assumption].
  - intros p Hp. unfold AnyMerklePath_Pretty. rewrite Hp. split; [reflexivity | ].
    destruct (AnyMerklePath_String_cases mp) as [(_ & s & Hs & _) | [_ Hp']]; congruence.
  - apply unescape_or_panic_decodes.
  - apply unescape_or_panic_fails.
Qed.

(** C7 as stated fails.  With a key whose encoding is [KeyEncodingMax],
    [Pretty()] fails fatally although no rendered string is invalid
    percent-encoding: [String()] itself panics and renders nothing; the
    same key with the URL encoding renders and decodes. *)
Lemma Pretty_fails_on_unknown_encoding :
  AnyMerklePath_Pretty max_key_path
  = Panics (PanicMessage "unexpected key encoding type")
  /\ AnyMerklePath_String max_key_path
     = Panics (PanicMessage "unexpected key encoding type")
  /\ (forall rendered, AnyMerklePath_String max_key_path <> Returns rendered)
  /\ AnyMerklePath_String url_key_path = Returns "/a%20b"
  /\ AnyMerklePath_Pretty url_key_path = Returns "/a b".
Proof. repeat split. discriminate. Qed.

(** X3.  [Pretty()] returns exactly on the paths whose keys all have a
    known encoding, URL or hex: what [String()] renders for them is
    always valid percent-encoding, so the panic of [Pretty()] itself is
    never taken, and on any other path [String()] panics. *)
Theorem Pretty_returns_iff_encodings_known (mp : AnyMerklePath) :
  (exists out, AnyMerklePath_Pretty mp = Returns out)
  <-> Forall (Forall (fun k => key_enc k = 0 \/ key_enc k = 1)) (AnyKeyPaths mp).
Proof.
  unfold AnyMerklePath_Pretty.
  destruct (AnyMerklePath_String_cases mp) as [(Hall & s & -> & [out Hout]) | [Hnot ->]].
  - split; [trivial | ]. intros _. exists out.
    apply unescape_or_panic_decodes, PctDecodes_PercentDecoded, Hout.
  - split; [intros [out H]; discriminate | contradiction].
Qed.

End PrettyOnAnyKeys.
